(** * giffs: a FUSE driver that hides file content behind a GIF header

    Shallow embedding of [giffs.py] and proofs about its two personalities:
    [GIFFS] (the backing file holds header ++ content, the view shows the
    content) and [GIFFSReverse] (the backing file holds the content, the
    view shows header ++ content).

    Python integers are unbounded, so offsets and sizes are [Z]; [bytes]
    objects are lists of [Byte.byte]; the dictionary returned by [getattr]
    is a [gmap string Z]; the calls of the [os] module act on an explicit
    backing-store state threaded through an exception monad. *)

From Stdlib Require Import ZArith Lia Strings.Byte Ascii String List.
From stdpp Require Import base option list gmap strings fin_maps.

Open Scope Z_scope.

Abbreviation bytes := (list byte).

(** ** Python helpers *)

Module Py.

(** [len(b)] as a Python integer. *)
Definition len {A} (l : list A) : Z := Z.of_nat (length l).

(** Index normalisation of a slice bound: a negative bound counts from the
    end, and every bound is clamped to [0, len]. *)
Definition clamp (n i : Z) : Z :=
  if i <? 0 then Z.max (i + n) 0 else Z.min i n.

(** [l[start:stop]] for integer bounds. *)
Definition slice {A} (l : list A) (start stop : Z) : list A :=
  let lo := clamp (len l) start in
  let hi := clamp (len l) stop in
  if lo <? hi then take (Z.to_nat (hi - lo)) (drop (Z.to_nat lo) l) else [].

(** *** base64.b64decode on the standard alphabet *)

Definition b64_index (c : ascii) : option N :=
  let n := N_of_ascii c in
  if ((65 <=? n) && (n <=? 90))%N then Some (n - 65)%N
  else if ((97 <=? n) && (n <=? 122))%N then Some (n - 71)%N
  else if ((48 <=? n) && (n <=? 57))%N then Some (n + 4)%N
  else if (n =? 43)%N then Some 62%N
  else if (n =? 47)%N then Some 63%N
  else None.

(** The sextets of the input up to the first padding character. *)
Fixpoint b64_sextets (s : string) : list N :=
  match s with
  | EmptyString => []
  | String c rest =>
      match b64_index c with
      | Some n => n :: b64_sextets rest
      | None => if Ascii.eqb c "="%char then [] else b64_sextets rest
      end
  end.

Definition byte_of_N (n : N) : byte :=
  default x00 (Byte.of_N (n mod 256)%N).

(** Four sextets give three bytes; a final group of three gives two bytes
    and a final group of two gives one. *)
Fixpoint b64_groups (l : list N) : bytes :=
  match l with
  | a :: b :: c :: d :: rest =>
      let w := (a * 262144 + b * 4096 + c * 64 + d)%N in
      byte_of_N (w / 65536) :: byte_of_N (w / 256) :: byte_of_N w
        :: b64_groups rest
  | [a; b; c] =>
      let w := (a * 262144 + b * 4096 + c * 64)%N in
      [byte_of_N (w / 65536); byte_of_N (w / 256)]
  | [a; b] =>
      let w := (a * 262144 + b * 4096)%N in
      [byte_of_N (w / 65536)]
  | _ => []
  end.

Definition b64decode (s : string) : bytes := b64_groups (b64_sextets s).

End Py.

(** ** The signature constant (giffs.py:18) *)

Definition FILE_HEADER : bytes :=
  Eval vm_compute in
    Py.b64decode "R0lGODlhAQABAIAAAAUEBAAAACwAAAAAAQABAAACAkQBADs=".

(** [len(FILE_HEADER)] *)
Definition L : Z := Py.len FILE_HEADER.


(** ** The backing file system

    The calls of Python's [os] module that the driver uses, over an explicit
    state: a tree of nodes by absolute path and a table of open descriptors,
    each with its own file position.  A failing call raises [OSError] with
    an [errno]; the state reached before the exception is kept.  Permission
    checks and time-stamp updates of the kernel are outside this model. *)

Module Os.

Inductive errno := EBADF | EINVAL | EISDIR | ELOOP | ENOENT | ENOTSUP.

Inductive outcome (A : Type) :=
| Return (a : A)
| Raise (e : errno).
Arguments Return {A} a.
Arguments Raise {A} e.

(** [os.stat_result], integer valued. *)
Record stat_result := mk_stat {
  st_mode : Z; st_ino : Z; st_dev : Z; st_nlink : Z; st_uid : Z;
  st_gid : Z; st_size : Z; st_atime : Z; st_mtime : Z; st_ctime : Z }.

Definition set_size (st : stat_result) (n : Z) : stat_result :=
  mk_stat (st_mode st) (st_ino st) (st_dev st) (st_nlink st) (st_uid st)
          (st_gid st) n (st_atime st) (st_mtime st) (st_ctime st).

Definition set_mode (st : stat_result) (m : Z) : stat_result :=
  mk_stat m (st_ino st) (st_dev st) (st_nlink st) (st_uid st)
          (st_gid st) (st_size st) (st_atime st) (st_mtime st) (st_ctime st).

(** A regular file keeps its bytes; its size is their number. *)
Inductive node :=
| Regular (meta : stat_result) (data : bytes)
| Directory (meta : stat_result)
| Symlink (meta : stat_result) (target : string).

Record state := mk_state {
  nodes : gmap string node;
  fds : gmap nat (string * nat) }.

Definition M (A : Type) : Type := state -> outcome A * state.

Definition ret {A} (a : A) : M A := fun s => (Return a, s).

Definition raise {A} (e : errno) : M A := fun s => (Raise e, s).

Definition bind {A B} (c : M A) (k : A -> M B) : M B := fun s =>
  match c s with
  | (Return a, s') => k a s'
  | (Raise e, s') => (Raise e, s')
  end.

(** [try: body finally: cleanup], the shape of a [with] block. *)
Definition finally {A} (body : M A) (cleanup : M unit) : M A := fun s =>
  let '(r, s1) := body s in
  match cleanup s1 with
  | (Return _, s2) => (r, s2)
  | (Raise e, s2) => (Raise e, s2)
  end.

Definition get : M state := fun s => (Return s, s).
Definition put (s' : state) : M unit := fun _ => (Return tt, s').

Declare Scope os_scope.
Delimit Scope os_scope with os.
Notation "'let!' x ':=' c 'in' k" := (bind c (fun x => k))
  (at level 10, x name, c at level 100, k at level 200) : os_scope.
Notation "c ';;' k" := (bind c (fun _ => k))
  (at level 100, k at level 200, right associativity) : os_scope.
Open Scope os_scope.

Definition node_stat (n : node) : stat_result :=
  match n with
  | Regular meta data => set_size meta (Py.len data)
  | Directory meta => meta
  | Symlink meta _ => meta
  end.

(** Path resolution follows at most [MAXSYMLINKS] links. *)
Definition MAXSYMLINKS : nat := 40.

Fixpoint follow (fuel : nat) (t : gmap string node) (path : string)
  : outcome string :=
  match t !! path with
  | Some (Symlink _ target) =>
      match fuel with
      | O => Raise ELOOP
      | S fuel' => follow fuel' t target
      end
  | _ => Return path
  end.

Definition resolve (path : string) : M string := fun s =>
  (follow MAXSYMLINKS (nodes s) path, s).

(** [os.lstat(path)]: the node itself, links not followed. *)
Definition lstat (path : string) : M stat_result := fun s =>
  match nodes s !! path with
  | Some n => (Return (node_stat n), s)
  | None => (Raise ENOENT, s)
  end.

(** [os.path.isfile(path)]: follows links; false where [os.stat] fails. *)
Definition path_isfile (path : string) : M bool := fun s =>
  match follow MAXSYMLINKS (nodes s) path with
  | Return p =>
      match nodes s !! p with
      | Some (Regular _ _) => (Return true, s)
      | _ => (Return false, s)
      end
  | Raise _ => (Return false, s)
  end.

(** The attributes of a file made by [os.open] with [O_CREAT]. *)
Definition fresh_meta (mode : Z) : stat_result :=
  mk_stat (Z.lor 32768 (Z.land mode 4095)) 0 0 1 0 0 0 0 0 0.

Definition new_fd (s : state) : nat := fresh (dom (fds s)).

(** [os.open(path, O_RDWR [| O_CREAT] [| O_TRUNC], mode)] *)
Definition open (path : string) (creat trunc : bool) (mode : Z) : M nat :=
  let! p := resolve path in
  let! s := get in
  let fd := new_fd s in
  match nodes s !! p with
  | Some (Regular meta data) =>
      put (mk_state
             (<[p := Regular meta (if trunc then [] else data)]> (nodes s))
             (<[fd := (p, O)]> (fds s)));;
      ret fd
  | Some (Directory _) => raise EISDIR
  | Some (Symlink _ _) => raise ELOOP
  | None =>
      if creat then
        put (mk_state (<[p := Regular (fresh_meta mode) []]> (nodes s))
                      (<[fd := (p, O)]> (fds s)));;
        ret fd
      else raise ENOENT
  end.

(** [os.close(fd)] *)
Definition close (fd : nat) : M unit :=
  let! s := get in
  match fds s !! fd with
  | Some _ => put (mk_state (nodes s) (delete fd (fds s)))
  | None => raise EBADF
  end.

(** The bytes of a file after [data] is stored at position [pos]; a gap
    between the old end and [pos] reads as zero bytes. *)
Definition store (old : bytes) (pos : nat) (data : bytes) : bytes :=
  take pos old ++ replicate (pos - length old) x00 ++ data
    ++ drop (pos + length data) old.

(** The bytes of a file after [os.write] of [data] at [pos]. *)
Definition written (old : bytes) (pos : nat) (data : bytes) : bytes :=
  match data with [] => old | _ => store old pos data end.

(** The bytes of a file cut or zero-extended to [n] bytes. *)
Definition resize (old : bytes) (n : nat) : bytes :=
  take n old ++ replicate (n - length old) x00.

(** [os.lseek(fd, pos, 0)]: absolute positioning. *)
Definition lseek (fd : nat) (pos : Z) : M Z :=
  let! s := get in
  match fds s !! fd with
  | Some (p, _) =>
      if pos <? 0 then raise EINVAL
      else
        put (mk_state (nodes s) (<[fd := (p, Z.to_nat pos)]> (fds s)));;
        ret pos
  | None => raise EBADF
  end.

(** [os.read(fd, n)]: at most [n] bytes from the file position, which
    advances past them; a negative [n] is refused before any transfer. *)
Definition read (fd : nat) (n : Z) : M bytes :=
  if n <? 0 then raise EINVAL
  else
    let! s := get in
    match fds s !! fd with
    | Some (p, pos) =>
        match nodes s !! p with
        | Some (Regular _ data) =>
            let out := take (Z.to_nat n) (drop pos data) in
            put (mk_state (nodes s)
                          (<[fd := (p, (pos + length out)%nat)]> (fds s)));;
            ret out
        | Some (Directory _) => raise EISDIR
        | _ => raise EBADF
        end
    | None => raise EBADF
    end.

(** [os.write(fd, data)]: all of [data] at the file position, which
    advances past it; writing nothing changes nothing. *)
Definition write (fd : nat) (data : bytes) : M Z :=
  let! s := get in
  match fds s !! fd with
  | Some (p, pos) =>
      match nodes s !! p with
      | Some (Regular meta old) =>
          match data with
          | [] => ret 0
          | _ =>
              put (mk_state
                     (<[p := Regular meta (store old pos data)]> (nodes s))
                     (<[fd := (p, (pos + length data)%nat)]> (fds s)));;
              ret (Py.len data)
          end
      | _ => raise EBADF
      end
  | None => raise EBADF
  end.

(** [f.truncate(n)] on an open file object. *)
Definition ftruncate (fd : nat) (n : Z) : M unit :=
  let! s := get in
  match fds s !! fd with
  | Some (p, _) =>
      match nodes s !! p with
      | Some (Regular meta old) =>
          if n <? 0 then raise EINVAL
          else
            put (mk_state
                   (<[p := Regular meta (resize old (Z.to_nat n))]> (nodes s))
                   (fds s))
      | _ => raise EINVAL
      end
  | None => raise EBADF
  end.

(** [os.chmod(path, mode)]: the permission bits of the resolved node. *)
Definition chmod (path : string) (mode : Z) : M unit :=
  let! p := resolve path in
  let! s := get in
  let perm st := set_mode st (Z.lor (Z.land (st_mode st) (Z.lnot 4095))
                                    (Z.land mode 4095)) in
  match nodes s !! p with
  | Some (Regular meta data) =>
      put (mk_state (<[p := Regular (perm meta) data]> (nodes s)) (fds s))
  | Some (Directory meta) =>
      put (mk_state (<[p := Directory (perm meta)]> (nodes s)) (fds s))
  | _ => raise ENOENT
  end.

(** [os.open] with [O_CREAT] succeeds on a path that resolves to a regular
    file or to no node at all. *)
Definition creatable (s : state) (path : string) : bool :=
  match follow MAXSYMLINKS (nodes s) path with
  | Return p =>
      match nodes s !! p with
      | None | Some (Regular _ _) => true
      | Some _ => false
      end
  | Raise _ => false
  end.

(** The bytes of the regular file at [path], links not followed. *)
Definition file_data (s : state) (path : string) : option bytes :=
  match nodes s !! path with
  | Some (Regular _ data) => Some data
  | _ => None
  end.

(** The bytes of the regular file an open descriptor refers to. *)
Definition fd_data (s : state) (fd : nat) : option bytes :=
  match fds s !! fd with
  | Some (p, _) => file_data s p
  | None => None
  end.

(** The position of an open descriptor. *)
Definition fd_pos (s : state) (fd : nat) : option nat :=
  snd <$> fds s !! fd.

End Os.

Import Os.

(** ** Mount context

    [self.rwlock] guards the seek-then-transfer pair.  When calls are
    dispatched one at a time the lock is free on entry of every call and
    released on each way out, so the block is its body; the interleaving of
    several calls, with acquisition and release as steps of their own, is
    the subject of module [Concurrent]. *)
Definition with_rwlock {A} (body : M A) : M A := body.

(** The keys copied from the [os.lstat] result (giffs.py:51-52, 122-123). *)
Definition attr_keys : list string :=
  ["st_atime"; "st_ctime"; "st_gid"; "st_mode"; "st_mtime"; "st_nlink";
   "st_size"; "st_uid"]%string.

(** [getattr(st, key)] on an [os.stat_result]. *)
Definition stat_attr (st : stat_result) (key : string) : Z :=
  if String.eqb key "st_atime" then st_atime st
  else if String.eqb key "st_ctime" then st_ctime st
  else if String.eqb key "st_gid" then st_gid st
  else if String.eqb key "st_mode" then st_mode st
  else if String.eqb key "st_mtime" then st_mtime st
  else if String.eqb key "st_nlink" then st_nlink st
  else if String.eqb key "st_size" then st_size st
  else if String.eqb key "st_uid" then st_uid st
  else if String.eqb key "st_ino" then st_ino st
  else st_dev st.

(** [dict((key, getattr(st, key)) for key in (...))] *)
Definition stat_dict (st : stat_result) : gmap string Z :=
  list_to_map ((fun key => (key, stat_attr st key)) <$> attr_keys).

(** ** The forward personality, class [GIFFS] (giffs.py:20-105) *)

Module GIFFS.

Definition create (path : string) (mode : Z) : M nat :=
  let! fh := Os.open path true true mode in
  Os.write fh FILE_HEADER;;
  ret fh.

Definition getattr (path : string) : M (gmap string Z) :=
  let! st := Os.lstat path in
  let dictionary := stat_dict st in
  let! isfile := Os.path_isfile path in
  if isfile then
    ret (<["st_size"%string := (dictionary !!! "st_size"%string) - L]>
           dictionary)
  else ret dictionary.

Definition read (path : string) (size offset : Z) (fh : nat) : M bytes :=
  with_rwlock (
    Os.lseek fh (offset + L);;
    Os.read fh size).

(** [open] in the method body is the builtin: mode ['r+'] opens an existing
    file for update, and the [with] block closes it on every way out. *)
Definition truncate (path : string) (length : Z) : M unit :=
  let! f := Os.open path false false 0 in
  finally (Os.ftruncate f (length + L)) (Os.close f).

Definition write (path : string) (data : bytes) (offset : Z) (fh : nat)
  : M Z :=
  with_rwlock (
    Os.lseek fh (offset + L);;
    Os.write fh data).

Definition chmod : string -> Z -> M unit := Os.chmod.

End GIFFS.

(** ** The reverse personality, class [GIFFSReverse] (giffs.py:108-157) *)

Module GIFFSReverse.

Definition getattr (path : string) : M (gmap string Z) :=
  let! st := Os.lstat path in
  let dictionary := stat_dict st in
  let! isfile := Os.path_isfile path in
  if isfile then
    ret (<["st_size"%string := (dictionary !!! "st_size"%string) + L]>
           dictionary)
  else ret dictionary.

Definition read (path : string) (size offset : Z) (fh : nat) : M bytes :=
  if offset <? L then
    let data := Py.slice FILE_HEADER offset (offset + size) in
    with_rwlock (
      Os.lseek fh 0;;
      let! rest := Os.read fh (size - (L - offset)) in
      ret (data ++ rest))
  else
    with_rwlock (
      Os.lseek fh (offset - L);;
      Os.read fh size).

End GIFFSReverse.

(** ** Dispatch of a FUSE request

    [__call__(op, path, *args)] prefixes the mount root to the path and
    looks the operation up on the personality (giffs.py:25-26, 113-114).
    The requests below are the operations this development is about. *)

Inductive request :=
| Chmod (path : string) (mode : Z)
| Create (path : string) (mode : Z)
| Getattr (path : string)
| Read (path : string) (size offset : Z) (fh : nat)
| Truncate (path : string) (length : Z)
| Write (path : string) (data : bytes) (offset : Z) (fh : nat).

Inductive reply :=
| RNone
| RInt (n : Z)
| RBytes (b : bytes)
| RDict (d : gmap string Z).

Definition reply_with {A} (f : A -> reply) (c : M A) : M reply :=
  let! a := c in ret (f a).

(** Modelled from the spec: the answer of the operation dispatcher (class
    [Operations] of the [fuse] package, imported at giffs.py:15 and absent
    from the sources) to an operation the personality does not define: the
    call fails with the "operation not supported" error and no call reaches
    the backing store. *)
Definition Operations_fallback : M reply := raise ENOTSUP.

Definition GIFFS_call (root : string) (r : request) : M reply :=
  match r with
  | Chmod path mode =>
      reply_with (fun _ => RNone) (GIFFS.chmod (root +:+ path) mode)
  | Create path mode =>
      reply_with (fun fh => RInt (Z.of_nat fh))
                 (GIFFS.create (root +:+ path) mode)
  | Getattr path => reply_with RDict (GIFFS.getattr (root +:+ path))
  | Read path size offset fh =>
      reply_with RBytes (GIFFS.read (root +:+ path) size offset fh)
  | Truncate path length =>
      reply_with (fun _ => RNone) (GIFFS.truncate (root +:+ path) length)
  | Write path data offset fh =>
      reply_with RInt (GIFFS.write (root +:+ path) data offset fh)
  end.

(** [GIFFSReverse] defines [getattr] and [read] among these and none of
    [chmod], [create], [truncate], [write]. *)
Definition GIFFSReverse_call (root : string) (r : request) : M reply :=
  match r with
  | Getattr path => reply_with RDict (GIFFSReverse.getattr (root +:+ path))
  | Read path size offset fh =>
      reply_with RBytes (GIFFSReverse.read (root +:+ path) size offset fh)
  | Chmod _ _ | Create _ _ | Truncate _ _ | Write _ _ _ _ =>
      Operations_fallback
  end.

Definition mutating (r : request) : bool :=
  match r with
  | Chmod _ _ | Create _ _ | Truncate _ _ | Write _ _ _ _ => true
  | Getattr _ | Read _ _ _ _ => false
  end.

(** ** Interleaved calls of [GIFFS.read] and [GIFFS.write]

    Each call is four atomic steps: acquire [self.rwlock], [os.lseek], the
    transfer ([os.read] or [os.write]), release.  An exception inside the
    [with] block skips to the release.  A schedule names, step by step, the
    thread that is offered the processor; a thread that cannot move (it
    waits for the lock, or has returned) leaves the world as it is. *)

Module Concurrent.

Inductive call :=
| CallRead (size offset : Z) (fh : nat)
| CallWrite (data : bytes) (offset : Z) (fh : nat).

Definition call_fh (c : call) : nat :=
  match c with CallRead _ _ fh => fh | CallWrite _ _ fh => fh end.

Definition call_offset (c : call) : Z :=
  match c with CallRead _ o _ => o | CallWrite _ o _ => o end.

(** [os.lseek(fh, offset + len(FILE_HEADER), 0)] *)
Definition seek (c : call) : M Z := Os.lseek (call_fh c) (call_offset c + L).

(** [os.read(fh, size)] or [os.write(fh, data)] *)
Definition transfer (c : call) : M reply :=
  match c with
  | CallRead size _ fh => reply_with RBytes (Os.read fh size)
  | CallWrite data _ fh => reply_with RInt (Os.write fh data)
  end.

Inductive phase :=
| Waiting
| Locked
| Seeked
| Leaving (r : outcome reply)
| Done (r : outcome reply).

(** The phases inside the [with self.rwlock] block. *)
Definition critical (ph : phase) : bool :=
  match ph with
  | Locked | Seeked | Leaving _ => true
  | Waiting | Done _ => false
  end.

Record world := mk_world {
  lock : bool;
  disk : Os.state;
  threads : list (call * phase) }.

Definition step_thread (lk : bool) (s : Os.state) (t : call * phase)
  : option (bool * Os.state * (call * phase)) :=
  let '(c, ph) := t in
  match ph with
  | Waiting => if lk then None else Some (true, s, (c, Locked))
  | Locked =>
      match seek c s with
      | (Return _, s') => Some (lk, s', (c, Seeked))
      | (Raise e, s') => Some (lk, s', (c, Leaving (Raise e)))
      end
  | Seeked => let '(r, s') := transfer c s in Some (lk, s', (c, Leaving r))
  | Leaving r => Some (false, s, (c, Done r))
  | Done _ => None
  end.

Definition step (i : nat) (w : world) : option world :=
  match threads w !! i with
  | Some t =>
      match step_thread (lock w) (disk w) t with
      | Some (lk, s, t') => Some (mk_world lk s (<[i := t']> (threads w)))
      | None => None
      end
  | None => None
  end.

Fixpoint run (sched : list nat) (w : world) : world :=
  match sched with
  | [] => w
  | i :: rest => run rest (default w (step i w))
  end.

(** All calls issued, none started, lock free. *)
Definition init (cs : list call) (s : Os.state) : world :=
  mk_world false s ((fun c => (c, Waiting)) <$> cs).

(** The position a call seeks to before it transfers. *)
Definition target (c : call) : nat := Z.to_nat (call_offset c + L).

(** The same call when dispatched alone, as the method of [GIFFS]. *)
Definition sequential (path : string) (c : call) : M reply :=
  match c with
  | CallRead size offset fh =>
      reply_with RBytes (GIFFS.read path size offset fh)
  | CallWrite data offset fh =>
      reply_with RInt (GIFFS.write path data offset fh)
  end.

(** Thread [i] holds the lock: it is the only one inside the block, and
    once it has sought, the descriptor stands where it sought to. *)
Definition holds (w : world) (i : nat) : Prop :=
  exists c ph,
    threads w !! i = Some (c, ph)
    /\ critical ph = true
    /\ (forall j c' ph', j <> i -> threads w !! j = Some (c', ph') ->
                         critical ph' = false)
    /\ (ph = Seeked -> fd_pos (disk w) (call_fh c) = Some (target c)).

(** The lock is held by exactly the thread inside the block, if any. *)
Definition consistent (w : world) : Prop :=
  if lock w then exists i, holds w i
  else forall j c ph, threads w !! j = Some (c, ph) -> critical ph = false.

End Concurrent.

(** ** Release of a handle

    [release(path, fh)] is [os.close(fh)] in both personalities
    (giffs.py:77-78, 148-149). *)
Definition release (path : string) (fh : nat) : M unit := Os.close fh.

(** ** Start-up (giffs.py:160-172)

    After [argparse] has read the two positional arguments and the [-o]
    string, the option string is split at commas and the personality and
    the [allow_other] flag are looked up among the fields. *)

Module Main.

(** [s.split(sep)] for a one-character separator: every separator cuts,
    empty fields are kept, and the empty string gives one empty field. *)
Fixpoint split (sep : ascii) (s : string) : list string :=
  match s with
  | EmptyString => [EmptyString]
  | String c rest =>
      if Ascii.eqb c sep then EmptyString :: split sep rest
      else
        match split sep rest with
        | field :: fields => String c field :: fields
        | [] => [String c EmptyString]
        end
  end.

(** [sep.join(fields)], the inverse direction, used to state facts about
    option strings built from their fields. *)
Fixpoint join (sep : ascii) (fields : list string) : string :=
  match fields with
  | [] => EmptyString
  | [field] => field
  | field :: rest => field +:+ String sep (join sep rest)
  end.

(** [c in s] for a character. *)
Fixpoint occurs (c : ascii) (s : string) : bool :=
  match s with
  | EmptyString => false
  | String c' rest => Ascii.eqb c' c || occurs c rest
  end.

(** [x in options] for a list of strings. *)
Definition member (x : string) (options : list string) : bool :=
  existsb (String.eqb x) options.

Inductive personality := Forward | Reverse.

(** The arguments of the [FUSE(...)] call: the class instantiated on
    [args.root], the mount point and the three keyword arguments. *)
Record mount := mk_mount {
  operations : personality;
  source : string;
  mountpoint : string;
  foreground : bool;
  nothreads : bool;
  allow_other : bool }.

(** Without [-o], [args.options] is [None] and [None.split] raises. *)
Inductive started :=
| Mounted (m : mount)
| AttributeError.

Definition main (root mountpoint : string) (options : option string)
  : started :=
  match options with
  | None => AttributeError
  | Some text =>
      let options := split ","%char text in
      if member "reverse" options then
        Mounted (mk_mount Reverse root mountpoint false true
                          (member "allow_other" options))
      else
        Mounted (mk_mount Forward root mountpoint false true
                          (member "allow_other" options))
  end.

End Main.

(** ** Calls one after the other

    The calls of a list run to completion one by one, in a given order of
    their indices, each as the method of [GIFFS]; the result of every call
    is kept with its index. *)

Module Serial.

Fixpoint serial (path : string) (cs : list Concurrent.call)
    (order : list nat) (s : state) : state * list (nat * outcome reply) :=
  match order with
  | [] => (s, [])
  | i :: rest =>
      match cs !! i with
      | Some c =>
          let '(r, s1) := Concurrent.sequential path c s in
          let '(s2, rs) := serial path cs rest s1 in
          (s2, (i, r) :: rs)
      | None => serial path cs rest s
      end
  end.

(** The call of a thread has returned (or raised) to its caller. *)
Definition returned (t : Concurrent.call * Concurrent.phase) : bool :=
  match t.2 with
  | Concurrent.Done _ => true
  | _ => false
  end.

(** What a thread in each phase has done to the store, seen from the store
    [s] that the calls before it have left. *)
Definition progress (path : string) (s : state) (w : Concurrent.world)
    (t : Concurrent.call * Concurrent.phase) : Prop :=
  match t.2 with
  | Concurrent.Locked => Concurrent.disk w = s
  | Concurrent.Seeked =>
      exists r, Concurrent.seek t.1 s = (Return r, Concurrent.disk w)
  | Concurrent.Leaving r =>
      Concurrent.sequential path t.1 s = (r, Concurrent.disk w)
  | Concurrent.Waiting | Concurrent.Done _ => True
  end.

(** The world agrees with running, one after the other and in [order], the
    calls that have returned. *)
Definition agrees (path : string) (cs : list Concurrent.call) (s0 : state)
    (w : Concurrent.world) (order : list nat) : Prop :=
  NoDup order
  /\ fst <$> Concurrent.threads w = cs
  /\ (forall i, i ∈ order <->
                exists c r, Concurrent.threads w !! i
                            = Some (c, Concurrent.Done r))
  /\ (forall i c r, Concurrent.threads w !! i = Some (c, Concurrent.Done r) ->
                    (i, r) ∈ (serial path cs order s0).2)
  /\ (Concurrent.lock w = false ->
      Concurrent.disk w = (serial path cs order s0).1)
  /\ (forall i t, Concurrent.threads w !! i = Some t ->
                  progress path (serial path cs order s0).1 w t).

End Serial.

(** ** Sample backing stores *)

Definition meta0 : stat_result := mk_stat 33188 7 1 1 1000 1000 0 11 12 13.

Definition hello : bytes := [x68; x65; x6c; x6c; x6f].

(** One regular file ["/r/f"] holding [data], open as descriptor 3. *)
Definition one_file (data : bytes) : state :=
  mk_state {[ "/r/f"%string := Regular meta0 data ]}
           {[ 3%nat := ("/r/f"%string, O) ]}.

Definition empty_store : state := mk_state ∅ ∅.

(** * Properties *)

Lemma FILE_HEADER_bytes :
  FILE_HEADER =
    [x47; x49; x46; x38; x39; x61; x01; x00; x01; x00; x80; x00; x00; x05;
     x04; x04; x00; x00; x00; x2c; x00; x00; x00; x00; x01; x00; x01; x00;
     x00; x02; x02; x44; x01; x00; x3b].
Proof. reflexivity. Qed.

Lemma L_value : L = 35.
Proof. reflexivity. Qed.

Lemma L_length : length FILE_HEADER = 35%nat.
Proof. reflexivity. Qed.

(** ** Slices and stored bytes *)

Lemma len_nonneg {A} (l : list A) : 0 <= Py.len l.
Proof. unfold Py.len. lia. Qed.

Lemma len_app {A} (l k : list A) : Py.len (l ++ k) = Py.len l + Py.len k.
Proof. unfold Py.len. rewrite length_app. lia. Qed.

Lemma to_nat_len {A} (l : list A) : Z.to_nat (Py.len l) = length l.
Proof. unfold Py.len. lia. Qed.

(** A slice with bounds inside the sequence is a [take] of a [drop]. *)
Lemma slice_inside {A} (l : list A) (start stop : Z) :
  0 <= start <= stop -> stop <= Py.len l ->
  Py.slice l start stop
  = take (Z.to_nat (stop - start)) (drop (Z.to_nat start) l).
Proof.
  intros Hs Hl. unfold Py.slice, Py.clamp.
  destruct (Z.ltb_spec start 0); [lia |].
  destruct (Z.ltb_spec stop 0); [lia |].
  rewrite !Z.min_l by lia.
  destruct (Z.ltb_spec start stop); [done |].
  assert (stop - start = 0) as -> by lia. done.
Qed.

(** A slice whose upper bound is at or past the end is a [drop]. *)
Lemma slice_to_end {A} (l : list A) (start stop : Z) :
  0 <= start <= Py.len l -> Py.len l <= stop ->
  Py.slice l start stop = drop (Z.to_nat start) l.
Proof.
  intros Hs Hl. unfold Py.slice, Py.clamp.
  destruct (Z.ltb_spec start 0); [lia |].
  destruct (Z.ltb_spec stop 0); [pose proof (len_nonneg l); lia |].
  rewrite (Z.min_l start) by lia. rewrite (Z.min_r stop) by lia.
  destruct (Z.ltb_spec start (Py.len l)).
  - apply take_ge. rewrite length_drop. unfold Py.len in *. lia.
  - symmetry. apply drop_ge. unfold Py.len in *. lia.
Qed.

Lemma store_at_end (old data : bytes) :
  store old (length old) data = old ++ data.
Proof.
  unfold store. rewrite take_ge by lia. rewrite Nat.sub_diag.
  rewrite drop_ge by lia. simpl. by rewrite app_nil_r.
Qed.

(** Bytes below the position written at stay as they were. *)
Lemma store_keeps (old data : bytes) (pos k : nat) :
  (k <= pos)%nat -> take k old `prefix_of` store old pos data.
Proof.
  intros Hk. unfold store.
  replace (take k old) with (take k (take pos old))
    by (rewrite take_take; f_equal; lia).
  apply prefix_app_r, prefix_take.
Qed.

Lemma resize_length (old : bytes) (n : nat) : length (resize old n) = n.
Proof.
  unfold resize. rewrite length_app, length_take, length_replicate. lia.
Qed.

Lemma resize_keeps (old : bytes) (n k : nat) :
  (k <= n)%nat -> take k old `prefix_of` resize old n.
Proof.
  intros Hk. unfold resize.
  replace (take k old) with (take k (take n old))
    by (rewrite take_take; f_equal; lia).
  apply prefix_app_r, prefix_take.
Qed.

(** A prefix of full length is the [take]. *)
Lemma prefix_take_eq (pre l : bytes) (k : nat) :
  pre `prefix_of` l -> length pre = k -> take k l = pre.
Proof.
  intros [rest ->] <-. apply take_app_length.
Qed.

Lemma resize_signed (old : bytes) :
  FILE_HEADER `prefix_of` old -> resize old (length FILE_HEADER) = FILE_HEADER.
Proof.
  intros [rest ->]. unfold resize.
  rewrite take_app_length, length_app.
  replace (length FILE_HEADER - (length FILE_HEADER + length rest))%nat
    with O by lia.
  change (replicate 0 x00) with (@nil byte). by rewrite app_nil_r.
Qed.

(** ** The primitives, call by call *)

Lemma bind_return {A B} (c : M A) (k : A -> M B) s a s' :
  c s = (Return a, s') -> bind c k s = k a s'.
Proof. intros H. unfold bind. by rewrite H. Qed.

Lemma bind_raise {A B} (c : M A) (k : A -> M B) s e s' :
  c s = (Raise e, s') -> bind c k s = (Raise e, s').
Proof. intros H. unfold bind. by rewrite H. Qed.

Lemma lseek_ok s fd p q pos :
  fds s !! fd = Some (p, q) -> 0 <= pos ->
  Os.lseek fd pos s
  = (Return pos, mk_state (nodes s) (<[fd := (p, Z.to_nat pos)]> (fds s))).
Proof.
  intros Hfd Hpos. unfold Os.lseek, bind, get, put, ret, raise.
  rewrite Hfd. destruct (Z.ltb_spec pos 0); [lia | done].
Qed.

Lemma read_ok s fd p pos meta data n :
  fds s !! fd = Some (p, pos) -> nodes s !! p = Some (Regular meta data) ->
  0 <= n ->
  Os.read fd n s
  = (Return (take (Z.to_nat n) (drop pos data)),
     mk_state (nodes s)
       (<[fd := (p, (pos + length (take (Z.to_nat n) (drop pos data)))%nat)]>
          (fds s))).
Proof.
  intros Hfd Hn Hpos. unfold Os.read, bind, get, put, ret, raise.
  destruct (Z.ltb_spec n 0); [lia |]. by rewrite Hfd, Hn.
Qed.

Lemma read_negative s fd n : n < 0 -> Os.read fd n s = (Raise EINVAL, s).
Proof.
  intros Hn. unfold Os.read, raise.
  destruct (Z.ltb_spec n 0); [done | lia].
Qed.

Lemma write_ok s fd p pos meta old data :
  fds s !! fd = Some (p, pos) -> nodes s !! p = Some (Regular meta old) ->
  exists s',
    Os.write fd data s = (Return (Py.len data), s')
    /\ nodes s' = <[p := Regular meta (written old pos data)]> (nodes s)
    /\ fds s' !! fd = Some (p, (pos + length data)%nat).
Proof.
  intros Hfd Hn. unfold Os.write, bind, get, put, ret, raise.
  rewrite Hfd, Hn. destruct data as [| b data].
  - eexists. split; [done |]. split.
    + simpl. by rewrite insert_id.
    + simpl. by rewrite Nat.add_0_r.
  - eexists. split; [done |]. split; [done |]. simpl.
    by rewrite lookup_insert_eq.
Qed.

Lemma written_at_end (old data : bytes) :
  written old (length old) data = old ++ data.
Proof.
  destruct data as [| b data]; [by rewrite app_nil_r |]. apply store_at_end.
Qed.

Lemma written_keeps (old data : bytes) (pos k : nat) :
  (k <= pos)%nat -> take k old `prefix_of` written old pos data.
Proof.
  intros Hk. destruct data; simpl.
  - apply prefix_take.
  - by apply store_keeps.
Qed.

Lemma open_creat_ok s path mode :
  creatable s path = true ->
  exists p meta,
    follow MAXSYMLINKS (nodes s) path = Return p
    /\ Os.open path true true mode s
       = (Return (new_fd s),
          mk_state (<[p := Regular meta []]> (nodes s))
                   (<[new_fd s := (p, O)]> (fds s))).
Proof.
  unfold creatable. intros Hc.
  destruct (follow MAXSYMLINKS (nodes s) path) as [p | e] eqn:Hf; [| done].
  unfold Os.open, bind, resolve, get, put, ret. rewrite Hf.
  destruct (nodes s !! p) as [[meta data | meta | meta target] |] eqn:Hn;
    try done.
  - by exists p, meta.
  - by exists p, (fresh_meta mode).
Qed.

(** ** The forward calls on a descriptor of a regular file *)

Section forward_calls.

Context (s : state) (fh : nat) (p : string) (q : nat).
Context (meta : stat_result) (old : bytes).
Hypothesis Hfd : fds s !! fh = Some (p, q).
Hypothesis Hnode : nodes s !! p = Some (Regular meta old).

Lemma forward_write_ok path data offset :
  0 <= offset + L ->
  exists s',
    GIFFS.write path data offset fh s = (Return (Py.len data), s')
    /\ nodes s'
       = <[p := Regular meta (written old (Z.to_nat (offset + L)) data)]>
           (nodes s)
    /\ fds s' !! fh = Some (p, (Z.to_nat (offset + L) + length data)%nat).
Proof.
  intros Hoff. unfold GIFFS.write, with_rwlock.
  rewrite (bind_return _ _ _ _ _ (lseek_ok s fh p q _ Hfd Hoff)).
  set (s0 := mk_state (nodes s)
                      (<[fh := (p, Z.to_nat (offset + L))]> (fds s))).
  destruct (write_ok s0 fh p (Z.to_nat (offset + L)) meta old data)
    as (s' & Hw & Hn & Hf); [apply lookup_insert_eq | done |].
  by exists s'.
Qed.

Lemma forward_read_ok path size offset :
  0 <= offset + L -> 0 <= size ->
  exists s',
    GIFFS.read path size offset fh s
    = (Return (take (Z.to_nat size) (drop (Z.to_nat (offset + L)) old)), s')
    /\ nodes s' = nodes s
    /\ exists pos, fds s' !! fh = Some (p, pos).
Proof.
  intros Hoff Hsize. unfold GIFFS.read, with_rwlock.
  rewrite (bind_return _ _ _ _ _ (lseek_ok s fh p q _ Hfd Hoff)).
  erewrite read_ok; [| apply lookup_insert_eq | apply Hnode | done].
  eexists. split; [reflexivity |]. split; [reflexivity |].
  eexists. apply lookup_insert_eq.
Qed.

End forward_calls.

Lemma create_ok s path mode :
  creatable s path = true ->
  exists fh s1 p meta,
    follow MAXSYMLINKS (nodes s) path = Return p
    /\ GIFFS.create path mode s = (Return fh, s1)
    /\ fds s1 !! fh = Some (p, length FILE_HEADER)
    /\ nodes s1 !! p = Some (Regular meta FILE_HEADER).
Proof.
  intros Hc. destruct (open_creat_ok s path mode Hc) as (p & meta & Hf & Ho).
  set (s0 := mk_state (<[p := Regular meta []]> (nodes s))
                      (<[new_fd s := (p, O)]> (fds s))) in Ho.
  destruct (write_ok s0 (new_fd s) p O meta [] FILE_HEADER)
    as (s1 & Hw & Hn & Hfd); [apply lookup_insert_eq .. |].
  exists (new_fd s), s1, p, meta. split; [done |]. split.
  - unfold GIFFS.create.
    rewrite (bind_return _ _ _ _ _ Ho), (bind_return _ _ _ _ _ Hw). done.
  - split; [done |]. rewrite Hn. apply lookup_insert_eq.
Qed.

(** ** Forward round trip *)

(** C1: on a path where a file can be created, [create] succeeds and leaves
    the signature as the whole backing file; writing [content] at view
    offset 0 through the returned handle succeeds in full, reading
    [len(content)] bytes at view offset 0 returns [content], and the backing
    file then holds the signature followed by [content]. *)
Theorem forward_round_trip (s : state) (path : string) (mode : Z)
    (content : bytes) :
  creatable s path = true ->
  exists fh s1 s2 s3 p,
    follow MAXSYMLINKS (nodes s) path = Return p
    /\ GIFFS.create path mode s = (Return fh, s1)
    /\ file_data s1 p = Some FILE_HEADER
    /\ GIFFS.write path content 0 fh s1 = (Return (Py.len content), s2)
    /\ GIFFS.read path (Py.len content) 0 fh s2 = (Return content, s3)
    /\ file_data s3 p = Some (FILE_HEADER ++ content)
    /\ fd_data s3 fh = Some (FILE_HEADER ++ content).
Proof.
  intros Hc.
  destruct (create_ok s path mode Hc) as (fh & s1 & p & meta & Hf & Hcr & Hfd1 & Hn1).
  destruct (forward_write_ok s1 fh p _ meta FILE_HEADER Hfd1 Hn1 path content 0)
    as (s2 & Hw & Hn2 & Hfd2); [done |].
  assert (Hdata : nodes s2 !! p = Some (Regular meta (FILE_HEADER ++ content))).
  { rewrite Hn2, lookup_insert_eq. do 2 f_equal. apply written_at_end. }
  destruct (forward_read_ok s2 fh p _ meta _ Hfd2 Hdata path (Py.len content) 0)
    as (s3 & Hr & Hn3 & pos & Hfd3); [done | apply len_nonneg |].
  exists fh, s1, s2, s3, p.
  assert (Hfile : file_data s3 p = Some (FILE_HEADER ++ content)).
  { unfold file_data. by rewrite Hn3, Hdata. }
  repeat split; try done.
  - unfold file_data. by rewrite Hn1.
  - rewrite Hr. do 2 f_equal.
    change (Z.to_nat (0 + L)) with (length FILE_HEADER).
    rewrite drop_app_length. apply take_ge. rewrite to_nat_len. lia.
  - unfold fd_data. by rewrite Hfd3.
Qed.

Lemma forward_round_trip_witness :
  exists fh s1 s2 s3 p,
    follow MAXSYMLINKS (nodes empty_store) "/r/g" = Return p
    /\ GIFFS.create "/r/g" 420 empty_store = (Return fh, s1)
    /\ file_data s1 p = Some FILE_HEADER
    /\ GIFFS.write "/r/g" hello 0 fh s1 = (Return (Py.len hello), s2)
    /\ GIFFS.read "/r/g" (Py.len hello) 0 fh s2 = (Return hello, s3)
    /\ file_data s3 p = Some (FILE_HEADER ++ hello)
    /\ fd_data s3 fh = Some (FILE_HEADER ++ hello).
Proof.
  apply (forward_round_trip empty_store "/r/g" 420 hello). reflexivity.
Defined.

(** ** Reverse reads *)

Section reverse_reads.

Context (s : state) (fh : nat) (p : string) (q : nat).
Context (meta : stat_result) (content : bytes).
Hypothesis Hfd : fds s !! fh = Some (p, q).
Hypothesis Hnode : nodes s !! p = Some (Regular meta content).

(** A read that starts inside the signature and reaches its end: the tail
    of the signature, then the head of the backing file. *)
Lemma reverse_read_splice path size offset :
  0 <= offset < L -> L - offset <= size ->
  exists s',
    GIFFSReverse.read path size offset fh s
    = (Return (drop (Z.to_nat offset) FILE_HEADER
               ++ take (Z.to_nat (size - (L - offset))) content), s')
    /\ nodes s' = nodes s.
Proof.
  intros Hoff Hsize. unfold GIFFSReverse.read, with_rwlock.
  destruct (Z.ltb_spec offset L); [| lia].
  rewrite slice_to_end by (fold L; lia).
  rewrite (bind_return _ _ _ _ _ (lseek_ok s fh p q 0 Hfd ltac:(done))).
  erewrite bind_return;
    [| eapply read_ok; [apply lookup_insert_eq | apply Hnode | lia]].
  eexists. split; reflexivity.
Qed.

(** A read that stops short of the end of the signature asks [os.read]
    for a negative number of bytes, after the seek. *)
Lemma reverse_read_short path size offset :
  offset < L -> size < L - offset ->
  GIFFSReverse.read path size offset fh s
  = (Raise EINVAL, mk_state (nodes s) (<[fh := (p, O)]> (fds s))).
Proof.
  intros Hoff Hsize. unfold GIFFSReverse.read, with_rwlock.
  destruct (Z.ltb_spec offset L); [| lia].
  rewrite (bind_return _ _ _ _ _ (lseek_ok s fh p q 0 Hfd ltac:(done))).
  apply bind_raise, read_negative. lia.
Qed.

(** A read that ends exactly at the end of the signature returns the slice;
    the descriptor has been moved to the start of the backing file. *)
Lemma reverse_read_exact path offset :
  0 <= offset < L ->
  GIFFSReverse.read path (L - offset) offset fh s
  = (Return (Py.slice FILE_HEADER offset L),
     mk_state (nodes s) (<[fh := (p, O)]> (fds s))).
Proof.
  intros Hoff.
  unfold GIFFSReverse.read, with_rwlock.
  destruct (Z.ltb_spec offset L); [| lia].
  replace (offset + (L - offset)) with L by lia.
  rewrite (bind_return _ _ _ _ _ (lseek_ok s fh p q 0 Hfd ltac:(done))).
  erewrite bind_return;
    [| eapply read_ok; [apply lookup_insert_eq | apply Hnode | lia]].
  replace (L - offset - (L - offset)) with 0 by lia.
  unfold ret. simpl. rewrite app_nil_r, insert_insert_eq. done.
Qed.

End reverse_reads.

(** C2: over a backing file holding [content], a reverse read of
    [L + len(content)] bytes at view offset 0 returns the signature followed
    by [content], and no node of the backing tree is changed. *)
Theorem reverse_round_trip (s : state) (fh : nat) (p : string) (q : nat)
    (meta : stat_result) (content : bytes) (path : string) :
  fds s !! fh = Some (p, q) ->
  nodes s !! p = Some (Regular meta content) ->
  exists s',
    GIFFSReverse.read path (L + Py.len content) 0 fh s
    = (Return (FILE_HEADER ++ content), s')
    /\ nodes s' = nodes s
    /\ file_data s' p = Some content.
Proof.
  intros Hfd Hnode.
  destruct (reverse_read_splice s fh p q meta content Hfd Hnode path
              (L + Py.len content) 0) as (s' & Hr & Hn).
  - done.
  - pose proof (len_nonneg content). lia.
  - exists s'. split; [| split; [done |]].
    + rewrite Hr. do 2 f_equal.
      replace (L + Py.len content - (L - 0)) with (Py.len content) by lia.
      rewrite to_nat_len, take_ge by lia. done.
    + unfold file_data. by rewrite Hn, Hnode.
Qed.

Lemma reverse_round_trip_witness :
  exists s',
    GIFFSReverse.read "/r/f" (L + Py.len hello) 0 3%nat (one_file hello)
    = (Return (FILE_HEADER ++ hello), s')
    /\ nodes s' = nodes (one_file hello)
    /\ file_data s' "/r/f" = Some hello.
Proof.
  apply (reverse_round_trip (one_file hello) 3%nat "/r/f" O meta0 hello "/r/f");
    reflexivity.
Defined.

(** C5: a reverse read of the first byte of the view, which lies inside
    the signature, does not return [Signature[0:1]]: the descriptor of the
    backing file is moved to 0 and [os.read] is then asked for -34 bytes,
    which raises [EINVAL]. *)
Theorem reverse_read_inside_signature_raises :
  GIFFSReverse.read "/r/f" 1 0 3%nat (one_file hello)
  = (Raise EINVAL, one_file hello)
  /\ Py.slice FILE_HEADER 0 (0 + 1) = [x47].
Proof. split; vm_compute; reflexivity. Qed.

(** C6: a reverse read of 3 bytes at view offset [L - 1], over a backing
    file that begins with the bytes [X], [Y], returns the last byte of the
    signature followed by [X] and [Y]. *)
Theorem boundary_splice (s : state) (fh : nat) (p : string) (q : nat)
    (meta : stat_result) (X Y : byte) (rest : bytes) (path : string) :
  fds s !! fh = Some (p, q) ->
  nodes s !! p = Some (Regular meta (X :: Y :: rest)) ->
  exists s',
    GIFFSReverse.read path 3 (L - 1) fh s
    = (Return (Py.slice FILE_HEADER (L - 1) L ++ [X; Y]), s')
    /\ nodes s' = nodes s.
Proof.
  intros Hfd Hnode.
  destruct (reverse_read_splice s fh p q meta _ Hfd Hnode path 3 (L - 1))
    as (s' & Hr & Hn); [done | done |].
  exists s'. split; [| done]. rewrite Hr. reflexivity.
Qed.

Lemma boundary_splice_witness :
  exists s',
    GIFFSReverse.read "/r/f" 3 (L - 1) 3%nat (one_file hello)
    = (Return (Py.slice FILE_HEADER (L - 1) L ++ [x68; x65]), s')
    /\ nodes s' = nodes (one_file hello).
Proof.
  apply (boundary_splice (one_file hello) 3%nat "/r/f" O meta0
           x68 x65 [x6c; x6c; x6f] "/r/f"); reflexivity.
Defined.

(** ** Attributes *)

Lemma follow_not_link fuel (t : gmap string node) path :
  (forall m target, t !! path <> Some (Symlink m target)) ->
  follow fuel t path = Return path.
Proof.
  intros Hn. destruct fuel; simpl;
    destruct (t !! path) as [[| |m target] |] eqn:E; try done;
    by destruct (Hn m target).
Qed.

Lemma follow_regular fuel (t : gmap string node) path meta data :
  t !! path = Some (Regular meta data) -> follow fuel t path = Return path.
Proof. intros H. apply follow_not_link. congruence. Qed.

Lemma stat_dict_lookup st key :
  key ∈ attr_keys -> stat_dict st !! key = Some (stat_attr st key).
Proof.
  unfold attr_keys. rewrite !elem_of_cons, elem_of_nil.
  intros H. repeat (destruct H as [-> | H]; [reflexivity |]). done.
Qed.

Lemma stat_dict_size st : stat_dict st !! "st_size"%string = Some (st_size st).
Proof. reflexivity. Qed.

Lemma path_isfile_total s path :
  exists b, Os.path_isfile path s = (Return b, s).
Proof.
  unfold Os.path_isfile.
  destruct (follow MAXSYMLINKS (nodes s) path) as [p | e]; [| by eexists].
  destruct (nodes s !! p) as [[| |] |]; by eexists.
Qed.

Lemma path_isfile_regular s path meta data :
  nodes s !! path = Some (Regular meta data) ->
  Os.path_isfile path s = (Return true, s).
Proof.
  intros H. unfold Os.path_isfile.
  by rewrite (follow_regular _ _ _ _ _ H), H.
Qed.

Lemma lstat_regular s path meta data :
  nodes s !! path = Some (Regular meta data) ->
  Os.lstat path s = (Return (set_size meta (Py.len data)), s).
Proof. intros H. unfold Os.lstat. by rewrite H. Qed.

(** What each [getattr] returns, from the two queries it makes. *)
Lemma forward_getattr_eq s path st isfile :
  Os.lstat path s = (Return st, s) ->
  Os.path_isfile path s = (Return isfile, s) ->
  GIFFS.getattr path s
  = (Return (if isfile
             then <["st_size"%string := st_size st - L]> (stat_dict st)
             else stat_dict st), s).
Proof.
  intros Hl Hi. unfold GIFFS.getattr.
  rewrite (bind_return _ _ _ _ _ Hl), (bind_return _ _ _ _ _ Hi).
  destruct isfile; [| done]. unfold ret.
  by rewrite (lookup_total_correct _ _ _ (stat_dict_size st)).
Qed.

Lemma reverse_getattr_eq s path st isfile :
  Os.lstat path s = (Return st, s) ->
  Os.path_isfile path s = (Return isfile, s) ->
  GIFFSReverse.getattr path s
  = (Return (if isfile
             then <["st_size"%string := st_size st + L]> (stat_dict st)
             else stat_dict st), s).
Proof.
  intros Hl Hi. unfold GIFFSReverse.getattr.
  rewrite (bind_return _ _ _ _ _ Hl), (bind_return _ _ _ _ _ Hi).
  destruct isfile; [| done]. unfold ret.
  by rewrite (lookup_total_correct _ _ _ (stat_dict_size st)).
Qed.

(** C3: for a regular backing file of [S] bytes, forward [getattr] with
    [S >= L] reports size [S - L] and reverse [getattr] reports size
    [S + L]; under every other key the dictionary holds the value of the
    backing [lstat]. *)
Theorem getattr_size_adjustment (s : state) (path : string)
    (meta : stat_result) (data : bytes) :
  nodes s !! path = Some (Regular meta data) ->
  exists st,
    Os.lstat path s = (Return st, s)
    /\ st_size st = Py.len data
    /\ (L <= Py.len data ->
        exists d,
          GIFFS.getattr path s = (Return d, s)
          /\ d !! "st_size"%string = Some (Py.len data - L)
          /\ forall key, key <> "st_size"%string ->
                         d !! key = stat_dict st !! key)
    /\ (0 <= Py.len data ->
        exists d,
          GIFFSReverse.getattr path s = (Return d, s)
          /\ d !! "st_size"%string = Some (Py.len data + L)
          /\ forall key, key <> "st_size"%string ->
                         d !! key = stat_dict st !! key).
Proof.
  intros Hn. exists (set_size meta (Py.len data)).
  pose proof (lstat_regular s path meta data Hn) as Hl.
  pose proof (path_isfile_regular s path meta data Hn) as Hi.
  split; [done |]. split; [done |]. split; intros _; eexists.
  - rewrite (forward_getattr_eq _ _ _ _ Hl Hi). split; [done |].
    split; [apply lookup_insert_eq |].
    intros key Hk. by apply lookup_insert_ne.
  - rewrite (reverse_getattr_eq _ _ _ _ Hl Hi). split; [done |].
    split; [apply lookup_insert_eq |].
    intros key Hk. by apply lookup_insert_ne.
Qed.

Lemma getattr_size_adjustment_witness :
  exists st,
    Os.lstat "/r/f" (one_file (FILE_HEADER ++ hello))
    = (Return st, one_file (FILE_HEADER ++ hello))
    /\ st_size st = 40
    /\ (exists d,
          GIFFS.getattr "/r/f" (one_file (FILE_HEADER ++ hello))
          = (Return d, one_file (FILE_HEADER ++ hello))
          /\ d !! "st_size"%string = Some 5
          /\ d !! "st_mode"%string = Some 33188)
    /\ (exists d,
          GIFFSReverse.getattr "/r/f" (one_file (FILE_HEADER ++ hello))
          = (Return d, one_file (FILE_HEADER ++ hello))
          /\ d !! "st_size"%string = Some 75
          /\ d !! "st_mode"%string = Some 33188).
Proof.
  destruct (getattr_size_adjustment (one_file (FILE_HEADER ++ hello)) "/r/f"
              meta0 (FILE_HEADER ++ hello) eq_refl)
    as (st & Hl & Hs & Hf & Hr).
  exists st. split; [exact Hl |]. split; [exact Hs |].
  assert (Hmode : stat_dict st !! "st_mode"%string = Some 33188).
  { revert Hl. vm_compute. intros [= <-]. reflexivity. }
  split.
  - destruct Hf as (d & Hg & Hsz & Hk); [vm_compute; discriminate |].
    exists d. split; [exact Hg |]. split; [exact Hsz |].
    rewrite Hk by discriminate. exact Hmode.
  - destruct Hr as (d & Hg & Hsz & Hk); [vm_compute; discriminate |].
    exists d. split; [exact Hg |]. split; [exact Hsz |].
    rewrite Hk by discriminate. exact Hmode.
Defined.

(** C4, as stated, fails: forward [getattr] on an empty regular backing
    file reports the size -35. *)
Lemma forward_getattr_negative_size :
  exists d,
    GIFFS.getattr "/r/f" (one_file []) = (Return d, one_file [])
    /\ d !! "st_size"%string = Some (-35)
    /\ ~ (0 <= -35).
Proof.
  eexists. split; [| split].
  - apply (forward_getattr_eq (one_file []) "/r/f"
             (set_size meta0 0) true); reflexivity.
  - reflexivity.
  - lia.
Qed.

(** C4, amended: for a backing node whose own size is not negative, reverse
    [getattr] reports a size that is not negative, and forward [getattr]
    reports a size that is not negative exactly when the path is not a
    regular file or the backing size is at least [L]; for a regular file of
    [S < L] bytes forward [getattr] reports [S - L]. *)
Theorem getattr_size_sign (s : state) (path : string) (st : stat_result)
    (isfile : bool) :
  Os.lstat path s = (Return st, s) ->
  Os.path_isfile path s = (Return isfile, s) ->
  0 <= st_size st ->
  exists df dr vf vr,
    GIFFS.getattr path s = (Return df, s)
    /\ GIFFSReverse.getattr path s = (Return dr, s)
    /\ df !! "st_size"%string = Some vf
    /\ dr !! "st_size"%string = Some vr
    /\ 0 <= vr
    /\ (0 <= vf <-> isfile = false \/ L <= st_size st)
    /\ (isfile = true -> vf = st_size st - L).
Proof.
  intros Hl Hi Hsz.
  pose proof (forward_getattr_eq s path st isfile Hl Hi) as Hf.
  pose proof (reverse_getattr_eq s path st isfile Hl Hi) as Hr.
  destruct isfile.
  - exists (<["st_size"%string := st_size st - L]> (stat_dict st)),
           (<["st_size"%string := st_size st + L]> (stat_dict st)),
           (st_size st - L), (st_size st + L).
    rewrite !lookup_insert_eq. repeat split; try done.
    + rewrite L_value. lia.
    + intros H. right. lia.
    + intros [H | H]; [done | lia].
  - exists (stat_dict st), (stat_dict st), (st_size st), (st_size st).
    rewrite stat_dict_size. repeat split; try done. intros _. by left.
Qed.

Lemma getattr_size_sign_witness :
  exists df dr vf vr,
    GIFFS.getattr "/r/f" (one_file hello) = (Return df, one_file hello)
    /\ GIFFSReverse.getattr "/r/f" (one_file hello)
       = (Return dr, one_file hello)
    /\ df !! "st_size"%string = Some vf
    /\ dr !! "st_size"%string = Some vr
    /\ 0 <= vr
    /\ (0 <= vf <-> true = false \/ L <= st_size (set_size meta0 5))
    /\ (true = true -> vf = st_size (set_size meta0 5) - L).
Proof.
  apply (getattr_size_sign (one_file hello) "/r/f" (set_size meta0 5) true).
  - reflexivity.
  - reflexivity.
  - simpl. lia.
Defined.

(** ** Truncation *)

Lemma new_fd_free s : fds s !! new_fd s = None.
Proof. apply not_elem_of_dom. unfold new_fd. apply is_fresh. Qed.

Lemma open_existing_ok s path meta old :
  nodes s !! path = Some (Regular meta old) ->
  Os.open path false false 0 s
  = (Return (new_fd s),
     mk_state (nodes s) (<[new_fd s := (path, O)]> (fds s))).
Proof.
  intros Hn. unfold Os.open, bind, resolve, get, put, ret.
  rewrite (follow_regular _ _ _ _ _ Hn), Hn. by rewrite insert_id.
Qed.

Lemma truncate_ok s path meta old length :
  nodes s !! path = Some (Regular meta old) ->
  0 <= length + L ->
  GIFFS.truncate path length s
  = (Return tt,
     mk_state (<[path := Regular meta (resize old (Z.to_nat (length + L)))]>
                 (nodes s))
              (fds s)).
Proof.
  intros Hn Hlen. unfold GIFFS.truncate.
  rewrite (bind_return _ _ _ _ _ (open_existing_ok s path meta old Hn)).
  unfold finally, Os.ftruncate, Os.close, bind, get, put, raise. simpl.
  rewrite lookup_insert_eq, Hn.
  destruct (Z.ltb_spec (length + L) 0); [lia |]. simpl.
  rewrite lookup_insert_eq, delete_insert_eq, delete_id by apply new_fd_free.
  done.
Qed.

Lemma truncate_negative s path meta old length :
  nodes s !! path = Some (Regular meta old) ->
  length + L < 0 ->
  GIFFS.truncate path length s = (Raise EINVAL, s).
Proof.
  intros Hn Hlen. unfold GIFFS.truncate.
  rewrite (bind_return _ _ _ _ _ (open_existing_ok s path meta old Hn)).
  unfold finally, Os.ftruncate, Os.close, bind, get, put, raise. simpl.
  rewrite lookup_insert_eq, Hn.
  destruct (Z.ltb_spec (length + L) 0); [| lia]. simpl.
  rewrite lookup_insert_eq, delete_insert_eq, delete_id by apply new_fd_free.
  by destruct s.
Qed.

(** C7: a forward truncate to view length [t >= 0] succeeds and leaves a
    backing file of [t + L] bytes; for [t = 0] the backing file has exactly
    [L] bytes, is the signature itself whenever it began with the signature
    before, and a following read of [L] bytes at view offset 0 returns no
    byte. *)
Theorem truncate_preserves_signature (s : state) (path : string)
    (meta : stat_result) (old : bytes) (fh q : nat) :
  nodes s !! path = Some (Regular meta old) ->
  fds s !! fh = Some (path, q) ->
  (forall t, 0 <= t ->
     exists s' data,
       GIFFS.truncate path t s = (Return tt, s')
       /\ file_data s' path = Some data
       /\ Py.len data = t + L)
  /\ exists s1 s2 data,
       GIFFS.truncate path 0 s = (Return tt, s1)
       /\ file_data s1 path = Some data
       /\ Py.len data = L
       /\ (FILE_HEADER `prefix_of` old -> data = FILE_HEADER)
       /\ GIFFS.read path L 0 fh s1 = (Return [], s2)
       /\ file_data s2 path = Some data.
Proof.
  intros Hn Hfd. split.
  - intros t Ht. do 2 eexists.
    rewrite (truncate_ok s path meta old t Hn) by (rewrite L_value; lia).
    split; [done |]. unfold file_data. simpl. rewrite lookup_insert_eq.
    split; [done |]. unfold Py.len. rewrite resize_length.
    rewrite L_value. lia.
  - set (data := resize old (Z.to_nat (0 + L))).
    set (s1 := mk_state (<[path := Regular meta data]> (nodes s)) (fds s)).
    assert (Hn1 : nodes s1 !! path = Some (Regular meta data))
      by apply lookup_insert_eq.
    destruct (forward_read_ok s1 fh path q meta data Hfd Hn1 path L 0)
      as (s2 & Hr & Hn2 & _); [done | done |].
    exists s1, s2, data.
    split; [by apply truncate_ok |].
    split; [unfold file_data; by rewrite Hn1 |].
    split; [unfold Py.len, data; by rewrite resize_length |].
    split; [apply resize_signed |].
    split.
    + rewrite Hr. do 2 f_equal. rewrite drop_ge; [done |].
      unfold data. by rewrite resize_length.
    + unfold file_data. by rewrite Hn2, Hn1.
Qed.

Lemma truncate_preserves_signature_witness :
  (forall t, 0 <= t ->
     exists s' data,
       GIFFS.truncate "/r/f" t (one_file (FILE_HEADER ++ hello))
       = (Return tt, s')
       /\ file_data s' "/r/f" = Some data
       /\ Py.len data = t + L)
  /\ exists s1 s2 data,
       GIFFS.truncate "/r/f" 0 (one_file (FILE_HEADER ++ hello))
       = (Return tt, s1)
       /\ file_data s1 "/r/f" = Some data
       /\ Py.len data = L
       /\ (FILE_HEADER `prefix_of` FILE_HEADER ++ hello -> data = FILE_HEADER)
       /\ GIFFS.read "/r/f" L 0 3%nat s1 = (Return [], s2)
       /\ file_data s2 "/r/f" = Some data.
Proof.
  apply (truncate_preserves_signature (one_file (FILE_HEADER ++ hello))
           "/r/f" meta0 (FILE_HEADER ++ hello) 3%nat O); reflexivity.
Defined.

(** ** The signature under forward mutations *)

(** What follows from a mutation keeping the bytes below [k]. *)
Lemma kept_prefix (old new pre : bytes) (k : nat) :
  take k old `prefix_of` new ->
  ((k <= length old)%nat -> take k new = take k old)
  /\ (pre `prefix_of` old -> length pre = k -> pre `prefix_of` new).
Proof.
  intros Hk. split.
  - intros Hlen. apply prefix_take_eq; [done |]. by apply length_take_le.
  - intros Hpre Hl. by rewrite <- (prefix_take_eq pre old k Hpre Hl).
Qed.

(** C9: through a forward handle on a regular backing file, a write at a
    view offset [>= 0] lands at backing offset [offset + L >= L] and a
    truncate to a view length [>= 0] cuts at backing length
    [length + L >= L]; both leave the first [L] bytes of the backing file
    as they were, so a file that begins with the signature still does. *)
Theorem signature_unforgeable (s : state) (fh : nat) (p : string) (q : nat)
    (meta : stat_result) (old : bytes) :
  fds s !! fh = Some (p, q) ->
  nodes s !! p = Some (Regular meta old) ->
  (forall path data offset, 0 <= offset ->
     exists s' new,
       GIFFS.write path data offset fh s = (Return (Py.len data), s')
       /\ file_data s' p = Some new
       /\ new = written old (Z.to_nat (offset + L)) data
       /\ L <= offset + L
       /\ take (length FILE_HEADER) old `prefix_of` new
       /\ (L <= Py.len old ->
           take (length FILE_HEADER) new = take (length FILE_HEADER) old)
       /\ (FILE_HEADER `prefix_of` old -> FILE_HEADER `prefix_of` new))
  /\ (forall view_length, 0 <= view_length ->
     exists s' new,
       GIFFS.truncate p view_length s = (Return tt, s')
       /\ file_data s' p = Some new
       /\ new = resize old (Z.to_nat (view_length + L))
       /\ L <= view_length + L
       /\ take (length FILE_HEADER) old `prefix_of` new
       /\ (L <= Py.len old ->
           take (length FILE_HEADER) new = take (length FILE_HEADER) old)
       /\ (FILE_HEADER `prefix_of` old -> FILE_HEADER `prefix_of` new)).
Proof.
  intros Hfd Hn. split.
  - intros path data offset Hoff.
    destruct (forward_write_ok s fh p q meta old Hfd Hn path data offset)
      as (s' & Hw & Hn' & _); [rewrite L_value; lia |].
    assert (Hk : take (length FILE_HEADER) old
                   `prefix_of` written old (Z.to_nat (offset + L)) data).
    { apply written_keeps. rewrite L_value, L_length. lia. }
    destruct (kept_prefix old _ FILE_HEADER _ Hk) as [Heq Hpre].
    exists s', (written old (Z.to_nat (offset + L)) data).
    split; [done |].
    split; [unfold file_data; by rewrite Hn', lookup_insert_eq |].
    split; [done |]. split; [lia |]. split; [done |]. split.
    + intros Hlen. apply Heq. unfold Py.len in Hlen.
      rewrite L_value in Hlen. rewrite L_length. lia.
    + intros H. by apply Hpre.
  - intros view_length Hlen.
    assert (Hk : take (length FILE_HEADER) old
                   `prefix_of` resize old (Z.to_nat (view_length + L))).
    { apply resize_keeps. rewrite L_value, L_length. lia. }
    destruct (kept_prefix old _ FILE_HEADER _ Hk) as [Heq Hpre].
    do 2 eexists.
    rewrite (truncate_ok s p meta old view_length Hn)
      by (rewrite L_value; lia).
    split; [done |].
    split; [unfold file_data; simpl; by rewrite lookup_insert_eq |].
    split; [done |]. split; [lia |]. split; [done |]. split.
    + intros Hl. apply Heq. unfold Py.len in Hl.
      rewrite L_value in Hl. rewrite L_length. lia.
    + intros H. by apply Hpre.
Qed.

Lemma signature_unforgeable_witness :
  exists s' new,
    GIFFS.write "/r/f" hello 2 3%nat (one_file (FILE_HEADER ++ hello))
    = (Return (Py.len hello), s')
    /\ file_data s' "/r/f" = Some new
    /\ take (length FILE_HEADER) new = FILE_HEADER.
Proof.
  destruct (signature_unforgeable (one_file (FILE_HEADER ++ hello)) 3%nat
              "/r/f" O meta0 (FILE_HEADER ++ hello) eq_refl eq_refl)
    as [Hw _].
  destruct (Hw "/r/f" hello 2 ltac:(lia))
    as (s' & new & Hwr & Hdata & _ & _ & _ & Heq & _).
  exists s', new. split; [exact Hwr |]. split; [exact Hdata |].
  rewrite Heq; [reflexivity | vm_compute; discriminate].
Defined.

(** ** The reverse personality leaves the backing tree alone *)

Lemma lseek_nodes fd pos s : nodes (snd (Os.lseek fd pos s)) = nodes s.
Proof.
  unfold Os.lseek, bind, get, put, ret, raise.
  destruct (fds s !! fd) as [[p q] |]; [| done].
  by destruct (pos <? 0).
Qed.

Lemma read_nodes fd n s : nodes (snd (Os.read fd n s)) = nodes s.
Proof.
  unfold Os.read, bind, get, put, ret, raise.
  destruct (n <? 0); [done |].
  destruct (fds s !! fd) as [[p q] |]; [| done].
  by destruct (nodes s !! p) as [[| |] |].
Qed.

Lemma bind_nodes {A B} (c : M A) (k : A -> M B) s :
  (forall s0, nodes (snd (c s0)) = nodes s0) ->
  (forall a s0, nodes (snd (k a s0)) = nodes s0) ->
  nodes (snd (bind c k s)) = nodes s.
Proof.
  intros Hc Hk. unfold bind. specialize (Hc s).
  destruct (c s) as [[a | e] s1]; simpl in *; [| done].
  by rewrite Hk.
Qed.

Lemma reverse_read_nodes path size offset fh s :
  nodes (snd (GIFFSReverse.read path size offset fh s)) = nodes s.
Proof.
  unfold GIFFSReverse.read, with_rwlock.
  destruct (offset <? L).
  - apply bind_nodes; [intros; apply lseek_nodes |].
    intros _ s0. apply bind_nodes; [intros; apply read_nodes | done].
  - apply bind_nodes; [intros; apply lseek_nodes |].
    intros _ s0. apply read_nodes.
Qed.

Lemma reverse_getattr_nodes path s :
  nodes (snd (GIFFSReverse.getattr path s)) = nodes s.
Proof.
  unfold GIFFSReverse.getattr. apply bind_nodes.
  - intros s0. unfold Os.lstat. by destruct (nodes s0 !! path).
  - intros st s0. apply bind_nodes.
    + intros s1. by destruct (path_isfile_total s1 path) as [b ->].
    + intros b s1. by destruct b.
Qed.

(** C8: [create], [write], [truncate] and [chmod] sent to the reverse
    personality fail with the "not supported" error and leave the state of
    the backing store as it was; no request at all to the reverse
    personality changes a node of the backing tree. *)
Theorem reverse_mutation_unsupported (root : string) (r : request)
    (s : state) :
  mutating r = true ->
  GIFFSReverse_call root r s = (Raise ENOTSUP, s)
  /\ forall r' s0, nodes (snd (GIFFSReverse_call root r' s0)) = nodes s0.
Proof.
  intros Hm. split.
  - by destruct r.
  - intros r' s0. destruct r'; try done; simpl; unfold reply_with.
    + apply bind_nodes; [intros; apply reverse_getattr_nodes | done].
    + apply bind_nodes; [intros; apply reverse_read_nodes | done].
Qed.

Lemma reverse_mutation_unsupported_witness :
  GIFFSReverse_call "/r" (Write "/f" hello 0 3%nat) (one_file hello)
  = (Raise ENOTSUP, one_file hello)
  /\ forall r' s0, nodes (snd (GIFFSReverse_call "/r" r' s0)) = nodes s0.
Proof.
  apply (reverse_mutation_unsupported "/r" (Write "/f" hello 0 3%nat)
           (one_file hello)).
  reflexivity.
Defined.

(** ** Interleaved calls *)

Module ConcurrentFacts.
Import Concurrent.

Lemma lseek_position fd pos s r s' :
  Os.lseek fd pos s = (Return r, s') -> fd_pos s' fd = Some (Z.to_nat pos).
Proof.
  unfold Os.lseek, bind, get, put, ret, raise, fd_pos.
  destruct (fds s !! fd) as [[p q] |]; [| done].
  destruct (pos <? 0); [done |].
  intros [= _ <-]. simpl. by rewrite lookup_insert_eq.
Qed.

Lemma consistent_init cs s : consistent (init cs s).
Proof.
  unfold consistent, init. simpl. intros j c ph.
  rewrite list_lookup_fmap. destruct (cs !! j); [| done].
  by intros [= _ <-].
Qed.

(** In a consistent world a thread inside the block is the holder. *)
Lemma critical_holds w i c ph :
  consistent w -> threads w !! i = Some (c, ph) -> critical ph = true ->
  lock w = true /\ holds w i.
Proof.
  unfold consistent. intros Hw Hi Hc. destruct (lock w).
  - split; [done |]. destruct Hw as (i0 & Hh).
    destruct (decide (i = i0)) as [-> | Hne]; [done |].
    destruct Hh as (c0 & ph0 & _ & _ & Hothers & _).
    rewrite (Hothers i c ph Hne Hi) in Hc. done.
  - rewrite (Hw i c ph Hi) in Hc. done.
Qed.

(** The thread that moved is in its next phase, the others are where they
    were. *)
Lemma holds_after w i c ph lk s' ph' :
  threads w !! i = Some (c, ph) ->
  (forall j c' ph0, j <> i -> threads w !! j = Some (c', ph0) ->
                    critical ph0 = false) ->
  critical ph' = true ->
  (ph' = Seeked -> fd_pos s' (call_fh c) = Some (target c)) ->
  holds (mk_world lk s' (<[i := (c, ph')]> (threads w))) i.
Proof.
  intros Hi Hothers Hc Hpos. exists c, ph'. simpl.
  split; [apply list_lookup_insert_eq; by eapply lookup_lt_Some |].
  split; [done |]. split; [| done].
  intros j c' ph0 Hne. rewrite list_lookup_insert_ne by done.
  by apply Hothers.
Qed.

Lemma consistent_step w i w' :
  consistent w -> step i w = Some w' -> consistent w'.
Proof.
  intros Hw. unfold step.
  destruct (threads w !! i) as [[c ph] |] eqn:Hi; [| done].
  destruct ph as [| | | r | r]; simpl.
  - (* acquire *)
    destruct (lock w) eqn:Hlk; [done |]. intros [= <-].
    unfold consistent in *. rewrite Hlk in Hw. simpl.
    exists i. apply (holds_after w i c Waiting); try done.
    intros j c' ph0 _. apply Hw.
  - (* seek *)
    destruct (critical_holds w i c Locked Hw Hi eq_refl)
      as (Hlk & c0 & ph0 & _ & _ & Hothers & _).
    destruct (seek c (disk w)) as [[r | e] s'] eqn:Hs; intros [= <-];
      unfold consistent; simpl; rewrite Hlk; exists i.
    + apply (holds_after w i c Locked); try done.
      intros _. by apply (lseek_position _ _ _ _ _ Hs).
    + by apply (holds_after w i c Locked).
  - (* transfer *)
    destruct (critical_holds w i c Seeked Hw Hi eq_refl)
      as (Hlk & c0 & ph0 & _ & _ & Hothers & _).
    destruct (transfer c (disk w)) as [r s'] eqn:Ht. intros [= <-].
    unfold consistent; simpl; rewrite Hlk; exists i.
    by apply (holds_after w i c Seeked).
  - (* release *)
    destruct (critical_holds w i c (Leaving r) Hw Hi eq_refl)
      as (Hlk & c0 & ph0 & _ & _ & Hothers & _).
    intros [= <-]. unfold consistent. simpl. intros j c' ph'.
    destruct (decide (j = i)) as [-> | Hne].
    + rewrite list_lookup_insert_eq by (by eapply lookup_lt_Some).
      by intros [= _ <-].
    + rewrite list_lookup_insert_ne by done. by apply Hothers.
  - done.
Qed.

Lemma consistent_run sched w : consistent w -> consistent (run sched w).
Proof.
  revert w. induction sched as [| i sched IH]; intros w Hw; [done |].
  simpl. apply IH. destruct (step i w) as [w' |] eqn:Hs; [| done].
  by apply (consistent_step w i w').
Qed.

(** A thread outside the block cannot move while the lock is held. *)
Lemma outsider_blocked w j :
  lock w = true ->
  (forall c ph, threads w !! j = Some (c, ph) -> critical ph = false) ->
  step j w = None.
Proof.
  intros Hlk Hj. unfold step.
  destruct (threads w !! j) as [[c ph] |] eqn:E; [| done].
  specialize (Hj c ph eq_refl). destruct ph; try done. simpl.
  by rewrite Hlk.
Qed.

(** One call run on its own goes through its four steps and ends with the
    result and the store of the method of [GIFFS]. *)
Lemma solo_call path c s :
  run [O; O; O; O] (init [c] s)
  = mk_world false (snd (sequential path c s))
             [(c, Done (fst (sequential path c s)))].
Proof.
  destruct c as [size offset fh | data offset fh];
    cbv -[Os.lseek Os.read Os.write Z.add L];
    destruct (Os.lseek fh (offset + L) s) as [[r | e] s1]; try done.
  - by destruct (Os.read fh size s1) as [[b | e] s2].
  - by destruct (Os.write fh data s1) as [[n | e] s2].
Qed.

End ConcurrentFacts.

(** C10: in every world reached by interleaving calls of [read] and
    [write] under any schedule, a call that has done its seek and not yet
    its transfer holds the lock, finds the descriptor at the position of its
    own seek, and is the only call that can take a step: its transfer is the
    next step on the backing store and runs from that position. *)
Theorem seek_transfer_atomic (cs : list Concurrent.call) (s0 : state)
    (sched : list nat) (i : nat) (c : Concurrent.call) :
  let w := Concurrent.run sched (Concurrent.init cs s0) in
  Concurrent.threads w !! i = Some (c, Concurrent.Seeked) ->
  Concurrent.lock w = true
  /\ fd_pos (Concurrent.disk w) (Concurrent.call_fh c)
     = Some (Concurrent.target c)
  /\ (forall j, j <> i -> Concurrent.step j w = None)
  /\ Concurrent.step i w
     = Some (Concurrent.mk_world true
               (snd (Concurrent.transfer c (Concurrent.disk w)))
               (<[i := (c, Concurrent.Leaving
                             (fst (Concurrent.transfer c (Concurrent.disk w))))]>
                  (Concurrent.threads w))).
Proof.
  intros w Hi.
  assert (Hw : Concurrent.consistent w)
    by apply ConcurrentFacts.consistent_run, ConcurrentFacts.consistent_init.
  destruct (ConcurrentFacts.critical_holds w i c _ Hw Hi eq_refl)
    as (Hlk & c1 & ph1 & Hi1 & _ & Hothers & Hpos).
  rewrite Hi in Hi1. injection Hi1 as <- <-.
  split; [done |]. split; [by apply Hpos |]. split.
  - intros j Hne. apply ConcurrentFacts.outsider_blocked; [done |].
    intros c' ph'. by apply Hothers.
  - unfold Concurrent.step. rewrite Hi. simpl.
    destruct (Concurrent.transfer c (Concurrent.disk w)) as [r s']. simpl.
    by rewrite Hlk.
Qed.

Lemma seek_transfer_atomic_witness :
  let cs := [Concurrent.CallRead 5 0 3%nat;
             Concurrent.CallWrite hello 0 3%nat] in
  let w := Concurrent.run [O; 1%nat; O; 1%nat]
             (Concurrent.init cs (one_file (FILE_HEADER ++ hello))) in
  Concurrent.lock w = true
  /\ fd_pos (Concurrent.disk w) 3%nat = Some 35%nat
  /\ (forall j, j <> O -> Concurrent.step j w = None)
  /\ Concurrent.step O w
     = Some (Concurrent.mk_world true
               (snd (Concurrent.transfer (Concurrent.CallRead 5 0 3%nat)
                       (Concurrent.disk w)))
               (<[O := (Concurrent.CallRead 5 0 3%nat,
                        Concurrent.Leaving
                          (fst (Concurrent.transfer
                                  (Concurrent.CallRead 5 0 3%nat)
                                  (Concurrent.disk w))))]>
                  (Concurrent.threads w))).
Proof.
  apply (seek_transfer_atomic
           [Concurrent.CallRead 5 0 3%nat; Concurrent.CallWrite hello 0 3%nat]
           (one_file (FILE_HEADER ++ hello)) [O; 1%nat; O; 1%nat] O
           (Concurrent.CallRead 5 0 3%nat)).
  reflexivity.
Defined.

(** * Further properties of the driver *)

(** ** Reads as slices of the view *)

Lemma slice_nonneg {A} (l : list A) (start stop : Z) :
  0 <= start <= stop ->
  Py.slice l start stop
  = take (Z.to_nat (stop - start)) (drop (Z.to_nat start) l).
Proof.
  intros Hs.
  destruct (Z.le_gt_cases stop (Py.len l)) as [Hle | Hgt].
  - by apply slice_inside.
  - destruct (Z.le_gt_cases start (Py.len l)) as [Hin | Hout].
    + rewrite slice_to_end by lia. symmetry. apply take_ge.
      rewrite length_drop. unfold Py.len in *. lia.
    + unfold Py.slice, Py.clamp.
      destruct (Z.ltb_spec start 0); [lia |].
      destruct (Z.ltb_spec stop 0); [lia |].
      rewrite !Z.min_r by lia. rewrite Z.ltb_irrefl.
      rewrite drop_ge by (unfold Py.len in *; lia). by rewrite take_nil.
Qed.

Lemma lseek_negative s fd p q pos :
  fds s !! fd = Some (p, q) -> pos < 0 ->
  Os.lseek fd pos s = (Raise EINVAL, s).
Proof.
  intros Hfd Hpos. unfold Os.lseek, bind, get, put, ret, raise.
  rewrite Hfd. destruct (Z.ltb_spec pos 0); [done | lia].
Qed.

Section read_laws.

Context (s : state) (fh : nat) (p : string) (q : nat).
Context (meta : stat_result) (data : bytes).
Hypothesis Hfd : fds s !! fh = Some (p, q).
Hypothesis Hnode : nodes s !! p = Some (Regular meta data).

(** A reverse read that starts at or after the end of the signature. *)
Lemma reverse_read_shift path size offset :
  L <= offset -> 0 <= size ->
  exists s',
    GIFFSReverse.read path size offset fh s
    = (Return (take (Z.to_nat size) (drop (Z.to_nat (offset - L)) data)), s')
    /\ nodes s' = nodes s.
Proof.
  intros Hoff Hsize. unfold GIFFSReverse.read, with_rwlock.
  destruct (Z.ltb_spec offset L); [lia |].
  rewrite (bind_return _ _ _ _ _
             (lseek_ok s fh p q (offset - L) Hfd ltac:(lia))).
  erewrite read_ok; [| apply lookup_insert_eq | apply Hnode | done].
  by eexists.
Qed.

(** A reverse read that reaches the end of the signature, as a slice. *)
Lemma reverse_read_reaching path size offset :
  0 <= offset -> 0 <= size -> L <= offset + size ->
  exists s',
    GIFFSReverse.read path size offset fh s
    = (Return (Py.slice (FILE_HEADER ++ data) offset (offset + size)), s')
    /\ nodes s' = nodes s.
Proof.
  intros Hoff Hsize Hreach.
  rewrite slice_nonneg by lia.
  replace (offset + size - offset) with size by lia.
  destruct (Z.lt_ge_cases offset L) as [Hin | Hout].
  - destruct (reverse_read_splice s fh p q meta data Hfd Hnode path
                size offset) as (s' & Hr & Hn); [lia | lia |].
    exists s'. split; [| done]. rewrite Hr. do 2 f_equal.
    assert (Ho : (Z.to_nat offset <= length FILE_HEADER)%nat)
      by (rewrite L_length; rewrite L_value in Hin; lia).
    rewrite drop_app_le by done.
    rewrite take_app_ge
      by (rewrite length_drop, L_length; rewrite L_value in *; lia).
    f_equal. f_equal. rewrite length_drop, L_length.
    rewrite L_value in *. lia.
  - destruct (reverse_read_shift path size offset) as (s' & Hr & Hn);
      [lia | lia |].
    exists s'. split; [| done]. rewrite Hr. do 3 f_equal.
    rewrite drop_app_ge by (rewrite L_length; rewrite L_value in Hout; lia).
    f_equal. rewrite L_length. rewrite L_value in *. lia.
Qed.

(** X1: a reverse read with [0 <= offset], [0 <= size] that reaches the
    end of the signature ([offset + size >= L]) returns the slice
    [offset : offset + size] of the signature followed by the backing
    bytes, and changes no backing node. *)
Theorem reverse_read_view path size offset :
  0 <= offset -> 0 <= size -> L <= offset + size ->
  exists s',
    GIFFSReverse.read path size offset fh s
    = (Return (Py.slice (FILE_HEADER ++ data) offset (offset + size)), s')
    /\ nodes s' = nodes s.
Proof.
  intros Hoff Hsize Hreach. by apply reverse_read_reaching.
Qed.

(** X2: with [0 <= offset] and [0 <= size], a reverse read raises exactly
    when the request ends before the end of the signature
    ([offset + size < L]); the error is [EINVAL] and the descriptor has
    been moved to the start of the backing file. *)
Theorem reverse_read_raises_iff path size offset :
  0 <= offset -> 0 <= size ->
  (offset + size < L ->
   GIFFSReverse.read path size offset fh s
   = (Raise EINVAL, mk_state (nodes s) (<[fh := (p, O)]> (fds s))))
  /\ ((exists e s', GIFFSReverse.read path size offset fh s = (Raise e, s'))
      <-> offset + size < L).
Proof.
  intros Hoff Hsize.
  assert (Hshort : offset + size < L ->
            GIFFSReverse.read path size offset fh s
            = (Raise EINVAL, mk_state (nodes s) (<[fh := (p, O)]> (fds s)))).
  { intros H. apply (reverse_read_short s fh p q Hfd); lia. }
  split; [done |]. split.
  - intros (e & s' & Hr).
    destruct (Z.lt_ge_cases (offset + size) L) as [H | H]; [done |].
    destruct (reverse_read_reaching path size offset) as (s1 & Hv & _);
      [done | done | lia |].
    rewrite Hv in Hr. discriminate.
  - intros H. rewrite (Hshort H). by do 2 eexists.
Qed.

(** X3: a forward read with [0 <= offset], [0 <= size] returns the slice
    [offset : offset + size] of what follows the first [L] bytes of the
    backing file, and changes no backing node; over a backing file of at
    most [L] bytes it returns no byte. *)
Theorem forward_read_view path size offset :
  0 <= offset -> 0 <= size ->
  exists s',
    GIFFS.read path size offset fh s
    = (Return (Py.slice (drop (length FILE_HEADER) data)
                        offset (offset + size)), s')
    /\ nodes s' = nodes s
    /\ (Py.len data <= L ->
        Py.slice (drop (length FILE_HEADER) data) offset (offset + size)
        = []).
Proof.
  intros Hoff Hsize.
  destruct (forward_read_ok s fh p q meta data Hfd Hnode path size offset)
    as (s' & Hr & Hn & _); [rewrite L_value; lia | done |].
  rewrite slice_nonneg by lia.
  replace (offset + size - offset) with size by lia.
  exists s'. split; [| split; [done |]].
  - rewrite Hr. do 3 f_equal. rewrite drop_drop. f_equal.
    rewrite L_length, L_value. lia.
  - intros Hshort. rewrite (drop_ge data); [by rewrite drop_nil, take_nil |].
    rewrite L_length. unfold Py.len in Hshort. rewrite L_value in Hshort. lia.
Qed.

End read_laws.

Lemma reverse_read_view_witness :
  exists s',
    GIFFSReverse.read "/r/f" 10 30 3%nat (one_file hello)
    = (Return (Py.slice (FILE_HEADER ++ hello) 30 (30 + 10)), s')
    /\ nodes s' = nodes (one_file hello).
Proof.
  apply (reverse_read_view (one_file hello) 3%nat "/r/f" O meta0 hello
           eq_refl eq_refl "/r/f" 10 30); vm_compute; discriminate.
Defined.

Lemma reverse_read_raises_iff_witness :
  (30 + 4 < L ->
   GIFFSReverse.read "/r/f" 4 30 3%nat (one_file hello)
   = (Raise EINVAL,
      mk_state (nodes (one_file hello))
               (<[3%nat := ("/r/f"%string, O)]> (fds (one_file hello)))))
  /\ ((exists e s',
         GIFFSReverse.read "/r/f" 4 30 3%nat (one_file hello) = (Raise e, s'))
      <-> 30 + 4 < L).
Proof.
  apply (reverse_read_raises_iff (one_file hello) 3%nat "/r/f" O meta0 hello
           eq_refl eq_refl "/r/f" 4 30); vm_compute; discriminate.
Defined.

Lemma forward_read_view_witness :
  exists s',
    GIFFS.read "/r/f" 3 1 3%nat (one_file (FILE_HEADER ++ hello))
    = (Return (Py.slice (drop (length FILE_HEADER) (FILE_HEADER ++ hello))
                        1 (1 + 3)), s')
    /\ nodes s' = nodes (one_file (FILE_HEADER ++ hello))
    /\ (Py.len (FILE_HEADER ++ hello) <= L ->
        Py.slice (drop (length FILE_HEADER) (FILE_HEADER ++ hello)) 1 (1 + 3)
        = []).
Proof.
  apply (forward_read_view (one_file (FILE_HEADER ++ hello)) 3%nat "/r/f" O
           meta0 (FILE_HEADER ++ hello) eq_refl eq_refl "/r/f" 3 1);
    vm_compute; discriminate.
Defined.

(** ** Forward writes and truncates, seen through the view *)

Lemma store_shift (old data : bytes) (k pos : nat) :
  (k <= length old)%nat ->
  store old (k + pos) data = take k old ++ store (drop k old) pos data.
Proof.
  intros Hk. unfold store.
  rewrite <- (take_take_drop old k pos), <- !app_assoc.
  rewrite length_drop, drop_drop.
  replace (k + pos - length old)%nat with (pos - (length old - k))%nat by lia.
  replace (k + pos + length data)%nat with (k + (pos + length data))%nat
    by lia.
  done.
Qed.

Lemma written_shift (old data : bytes) (k pos : nat) :
  (k <= length old)%nat ->
  written old (k + pos) data = take k old ++ written (drop k old) pos data.
Proof.
  intros Hk. destruct data as [| b data]; simpl.
  - by rewrite take_drop.
  - by apply store_shift.
Qed.

Lemma resize_shift (old : bytes) (k n : nat) :
  (k <= length old)%nat ->
  resize old (k + n) = take k old ++ resize (drop k old) n.
Proof.
  intros Hk. unfold resize.
  rewrite <- (take_take_drop old k n), <- !app_assoc, length_drop.
  replace (k + n - length old)%nat with (n - (length old - k))%nat by lia.
  done.
Qed.

Lemma store_read_back (old data : bytes) (pos : nat) :
  take (length data) (drop pos (store old pos data)) = data.
Proof.
  unfold store. rewrite app_assoc.
  rewrite drop_app_length'
    by (rewrite length_app, length_take, length_replicate; lia).
  apply take_app_length.
Qed.

Section forward_mutations.

Context (s : state) (fh : nat) (p : string) (q : nat).
Context (meta : stat_result) (old : bytes).
Hypothesis Hfd : fds s !! fh = Some (p, q).
Hypothesis Hnode : nodes s !! p = Some (Regular meta old).

(** X4: on a backing file of at least [L] bytes, a forward write at view
    offset [offset >= 0] keeps the first [L] bytes and changes what follows
    them exactly as [os.write] at position [offset] changes a plain file
    (zero bytes fill a gap after the old end); no other node changes. *)
Theorem forward_write_view path data offset :
  0 <= offset -> L <= Py.len old ->
  exists s',
    GIFFS.write path data offset fh s = (Return (Py.len data), s')
    /\ nodes s'
       = <[p := Regular meta
                  (take (length FILE_HEADER) old
                   ++ written (drop (length FILE_HEADER) old)
                              (Z.to_nat offset) data)]> (nodes s).
Proof.
  intros Hoff Hlen.
  destruct (forward_write_ok s fh p q meta old Hfd Hnode path data offset)
    as (s' & Hw & Hn & _); [rewrite L_value; lia |].
  exists s'. split; [done |]. rewrite Hn. do 2 f_equal.
  replace (Z.to_nat (offset + L))
    with (length FILE_HEADER + Z.to_nat offset)%nat
    by (rewrite L_length, L_value; lia).
  apply written_shift. unfold Py.len in Hlen.
  rewrite L_length. rewrite L_value in Hlen. lia.
Qed.

(** X5: whatever the backing file holds, after a forward write of [data]
    at view offset [offset >= 0] a forward read of [len(data)] bytes at the
    same offset returns [data]. *)
Theorem forward_write_read_back path data offset :
  0 <= offset ->
  exists s1 s2,
    GIFFS.write path data offset fh s = (Return (Py.len data), s1)
    /\ GIFFS.read path (Py.len data) offset fh s1 = (Return data, s2).
Proof.
  intros Hoff.
  destruct (forward_write_ok s fh p q meta old Hfd Hnode path data offset)
    as (s1 & Hw & Hn1 & Hfd1); [rewrite L_value; lia |].
  assert (Hnode1 : nodes s1 !! p
            = Some (Regular meta (written old (Z.to_nat (offset + L)) data)))
    by (rewrite Hn1; apply lookup_insert_eq).
  destruct (forward_read_ok s1 fh p _ meta _ Hfd1 Hnode1 path
              (Py.len data) offset) as (s2 & Hr & _);
    [rewrite L_value; lia | apply len_nonneg |].
  exists s1, s2. split; [done |]. rewrite Hr. do 2 f_equal.
  rewrite to_nat_len. destruct data as [| b data]; [done |].
  apply store_read_back.
Qed.

(** X6: on a backing file of at least [L] bytes, a forward truncate to
    view length [t >= 0] keeps the first [L] bytes and cuts or zero-extends
    what follows them to [t] bytes; forward [getattr] then reports size [t]
    and a forward read of [t] bytes at view offset 0 returns those [t]
    bytes. *)
Theorem forward_truncate_view (t : Z) :
  0 <= t -> L <= Py.len old ->
  exists s1 s2 d,
    GIFFS.truncate p t s = (Return tt, s1)
    /\ file_data s1 p
       = Some (take (length FILE_HEADER) old
               ++ resize (drop (length FILE_HEADER) old) (Z.to_nat t))
    /\ GIFFS.getattr p s1 = (Return d, s1)
    /\ d !! "st_size"%string = Some t
    /\ GIFFS.read p t 0 fh s1
       = (Return (resize (drop (length FILE_HEADER) old) (Z.to_nat t)), s2).
Proof.
  intros Ht Hlen.
  set (view := resize (drop (length FILE_HEADER) old) (Z.to_nat t)).
  set (new := take (length FILE_HEADER) old ++ view).
  assert (Hnew : resize old (Z.to_nat (t + L)) = new).
  { replace (Z.to_nat (t + L)) with (length FILE_HEADER + Z.to_nat t)%nat
      by (rewrite L_length, L_value; lia).
    apply resize_shift. unfold Py.len in Hlen.
    rewrite L_length. rewrite L_value in Hlen. lia. }
  assert (Htake : length (take (length FILE_HEADER) old)
                  = length FILE_HEADER).
  { apply length_take_le. unfold Py.len in Hlen.
    rewrite L_length. rewrite L_value in Hlen. lia. }
  pose proof (truncate_ok s p meta old t Hnode ltac:(rewrite L_value; lia))
    as Htr.
  rewrite Hnew in Htr.
  set (s1 := mk_state (<[p := Regular meta new]> (nodes s)) (fds s)) in Htr.
  assert (Hnode1 : nodes s1 !! p = Some (Regular meta new))
    by apply lookup_insert_eq.
  destruct (forward_read_ok s1 fh p q meta new Hfd Hnode1 p t 0)
    as (s2 & Hr & _); [done | done |].
  exists s1, s2. eexists.
  split; [done |]. split; [unfold file_data; by rewrite Hnode1 |].
  rewrite (forward_getattr_eq s1 p _ true
             (lstat_regular s1 p meta new Hnode1)
             (path_isfile_regular s1 p meta new Hnode1)).
  split; [done |]. split.
  - rewrite lookup_insert_eq. f_equal. simpl.
    unfold Py.len, new. rewrite length_app, Htake.
    unfold view. rewrite resize_length, L_length, L_value. lia.
  - rewrite Hr. do 2 f_equal.
    change (Z.to_nat (0 + L)) with (length FILE_HEADER).
    unfold new. rewrite drop_app_length' by done.
    apply take_ge. unfold view. by rewrite resize_length.
Qed.

End forward_mutations.

Lemma forward_write_view_witness :
  exists s',
    GIFFS.write "/r/f" hello 7 3%nat (one_file (FILE_HEADER ++ hello))
    = (Return (Py.len hello), s')
    /\ nodes s'
       = <["/r/f"%string :=
             Regular meta0
               (take (length FILE_HEADER) (FILE_HEADER ++ hello)
                ++ written (drop (length FILE_HEADER) (FILE_HEADER ++ hello))
                           (Z.to_nat 7) hello)]>
           (nodes (one_file (FILE_HEADER ++ hello))).
Proof.
  apply (forward_write_view (one_file (FILE_HEADER ++ hello)) 3%nat "/r/f" O
           meta0 (FILE_HEADER ++ hello) eq_refl eq_refl "/r/f" hello 7);
    vm_compute; discriminate.
Defined.

Lemma forward_write_read_back_witness :
  exists s1 s2,
    GIFFS.write "/r/f" hello 9 3%nat (one_file [x47; x49]) 
    = (Return (Py.len hello), s1)
    /\ GIFFS.read "/r/f" (Py.len hello) 9 3%nat s1 = (Return hello, s2).
Proof.
  apply (forward_write_read_back (one_file [x47; x49]) 3%nat "/r/f" O
           meta0 [x47; x49] eq_refl eq_refl "/r/f" hello 9);
    vm_compute; discriminate.
Defined.

Lemma forward_truncate_view_witness :
  exists s1 s2 d,
    GIFFS.truncate "/r/f" 8 (one_file (FILE_HEADER ++ hello))
    = (Return tt, s1)
    /\ file_data s1 "/r/f"
       = Some (take (length FILE_HEADER) (FILE_HEADER ++ hello)
               ++ resize (drop (length FILE_HEADER) (FILE_HEADER ++ hello))
                         (Z.to_nat 8))
    /\ GIFFS.getattr "/r/f" s1 = (Return d, s1)
    /\ d !! "st_size"%string = Some 8
    /\ GIFFS.read "/r/f" 8 0 3%nat s1
       = (Return (resize (drop (length FILE_HEADER) (FILE_HEADER ++ hello))
                         (Z.to_nat 8)), s2).
Proof.
  apply (forward_truncate_view (one_file (FILE_HEADER ++ hello)) 3%nat
           "/r/f" O meta0 (FILE_HEADER ++ hello) eq_refl eq_refl 8);
    vm_compute; discriminate.
Defined.

(** ** Reported size against what a read delivers *)

(** X7: for a regular backing file of [S] bytes open as [fh], the size
    each personality reports is the number of bytes a read at view offset 0
    delivers when asked for at least that many: [S + L] in reverse mode
    and, when [S >= L], [S - L] in forward mode. *)
Theorem size_matches_read (s : state) (fh : nat) (p : string) (q : nat)
    (meta : stat_result) (data : bytes) :
  fds s !! fh = Some (p, q) ->
  nodes s !! p = Some (Regular meta data) ->
  (exists d,
     GIFFSReverse.getattr p s = (Return d, s)
     /\ d !! "st_size"%string = Some (Py.len data + L)
     /\ forall size, Py.len data + L <= size ->
         exists b s',
           GIFFSReverse.read p size 0 fh s = (Return b, s')
           /\ Py.len b = Py.len data + L)
  /\ (L <= Py.len data ->
      exists d,
        GIFFS.getattr p s = (Return d, s)
        /\ d !! "st_size"%string = Some (Py.len data - L)
        /\ forall size, Py.len data - L <= size ->
            exists b s',
              GIFFS.read p size 0 fh s = (Return b, s')
              /\ Py.len b = Py.len data - L).
Proof.
  intros Hfd Hnode.
  pose proof (lstat_regular s p meta data Hnode) as Hl.
  pose proof (path_isfile_regular s p meta data Hnode) as Hi.
  pose proof (len_nonneg data) as Hpos.
  split.
  - eexists. rewrite (reverse_getattr_eq _ _ _ _ Hl Hi).
    split; [done |]. split; [apply lookup_insert_eq |].
    intros size Hbig.
    destruct (reverse_read_splice s fh p q meta data Hfd Hnode p size 0)
      as (s' & Hr & _); [done | rewrite L_value in *; lia |].
    do 2 eexists. split; [exact Hr |].
    rewrite len_app. change (Py.len (drop (Z.to_nat 0) FILE_HEADER)) with L.
    unfold Py.len at 1. rewrite length_take. unfold Py.len in *. lia.
  - intros Hlen. eexists. rewrite (forward_getattr_eq _ _ _ _ Hl Hi).
    split; [done |]. split; [apply lookup_insert_eq |].
    intros size Hbig.
    destruct (forward_read_ok s fh p q meta data Hfd Hnode p size 0)
      as (s' & Hr & _); [done | lia |].
    do 2 eexists. split; [exact Hr |].
    unfold Py.len at 1. rewrite length_take, length_drop.
    change (Z.to_nat (0 + L)) with 35%nat.
    unfold Py.len in *. rewrite L_value in *. lia.
Qed.

Lemma size_matches_read_witness :
  exists d b s',
    GIFFSReverse.getattr "/r/f" (one_file hello) = (Return d, one_file hello)
    /\ d !! "st_size"%string = Some 40
    /\ GIFFSReverse.read "/r/f" 4096 0 3%nat (one_file hello)
       = (Return b, s')
    /\ Py.len b = 40.
Proof.
  destruct (size_matches_read (one_file hello) 3%nat "/r/f" O meta0 hello
              eq_refl eq_refl) as [(d & Hg & Hsz & Hread) _].
  destruct (Hread 4096 ltac:(vm_compute; discriminate)) as (b & s' & Hr & Hb).
  exists d, b, s'. split; [exact Hg |]. split; [exact Hsz |].
  split; [exact Hr | exact Hb].
Defined.

(** ** Attributes of what is not a regular file *)

Lemma follow_link fuel (t : gmap string node) path m target :
  t !! path = Some (Symlink m target) ->
  follow (S fuel) t path = follow fuel t target.
Proof. intros H. simpl. by rewrite H. Qed.

(** X8: for a directory both personalities return the attributes of
    [os.lstat] as they are, the size included. *)
Theorem getattr_directory (s : state) (path : string) (meta : stat_result) :
  nodes s !! path = Some (Directory meta) ->
  GIFFS.getattr path s = (Return (stat_dict meta), s)
  /\ GIFFSReverse.getattr path s = (Return (stat_dict meta), s)
  /\ stat_dict meta !! "st_size"%string = Some (st_size meta).
Proof.
  intros Hn.
  assert (Hl : Os.lstat path s = (Return meta, s))
    by (unfold Os.lstat; by rewrite Hn).
  assert (Hi : Os.path_isfile path s = (Return false, s)).
  { unfold Os.path_isfile.
    rewrite follow_not_link by (intros m t; congruence). by rewrite Hn. }
  rewrite (forward_getattr_eq _ _ _ _ Hl Hi),
    (reverse_getattr_eq _ _ _ _ Hl Hi).
  done.
Qed.

Lemma getattr_directory_witness :
  GIFFS.getattr "/r"
    (mk_state {[ "/r"%string := Directory meta0 ]} ∅)
  = (Return (stat_dict meta0),
     mk_state {[ "/r"%string := Directory meta0 ]} ∅)
  /\ GIFFSReverse.getattr "/r"
       (mk_state {[ "/r"%string := Directory meta0 ]} ∅)
     = (Return (stat_dict meta0),
        mk_state {[ "/r"%string := Directory meta0 ]} ∅)
  /\ stat_dict meta0 !! "st_size"%string = Some (st_size meta0).
Proof.
  apply (getattr_directory (mk_state {[ "/r"%string := Directory meta0 ]} ∅)
           "/r" meta0).
  reflexivity.
Defined.

(** X9: on a path that names no node both personalities raise [ENOENT]
    and leave the store as it was. *)
Theorem getattr_missing (s : state) (path : string) :
  nodes s !! path = None ->
  GIFFS.getattr path s = (Raise ENOENT, s)
  /\ GIFFSReverse.getattr path s = (Raise ENOENT, s).
Proof.
  intros Hn.
  assert (Hl : Os.lstat path s = (@Raise stat_result ENOENT, s))
    by (unfold Os.lstat; by rewrite Hn).
  unfold GIFFS.getattr, GIFFSReverse.getattr.
  by rewrite !(bind_raise _ _ _ _ _ Hl).
Qed.

Lemma getattr_missing_witness :
  GIFFS.getattr "/r/g" (one_file hello) = (Raise ENOENT, one_file hello)
  /\ GIFFSReverse.getattr "/r/g" (one_file hello)
     = (Raise ENOENT, one_file hello).
Proof. apply (getattr_missing (one_file hello) "/r/g"). reflexivity. Defined.

(** X10: for a symbolic link whose target is a regular file, the size
    reported is the size of the link itself ([os.lstat] does not follow
    the link) shifted by [L] ([os.path.isfile] does follow it): minus [L]
    in forward mode, plus [L] in reverse mode, whatever the target
    holds. *)
Theorem getattr_symlink_to_file (s : state) (path target : string)
    (meta tmeta : stat_result) (data : bytes) :
  nodes s !! path = Some (Symlink meta target) ->
  nodes s !! target = Some (Regular tmeta data) ->
  exists df dr,
    GIFFS.getattr path s = (Return df, s)
    /\ GIFFSReverse.getattr path s = (Return dr, s)
    /\ df !! "st_size"%string = Some (st_size meta - L)
    /\ dr !! "st_size"%string = Some (st_size meta + L).
Proof.
  intros Hlink Htarget.
  assert (Hl : Os.lstat path s = (Return meta, s))
    by (unfold Os.lstat; by rewrite Hlink).
  assert (Hi : Os.path_isfile path s = (Return true, s)).
  { unfold Os.path_isfile, MAXSYMLINKS.
    rewrite (follow_link _ _ _ _ _ Hlink).
    by rewrite (follow_regular _ _ _ _ _ Htarget), Htarget. }
  do 2 eexists.
  rewrite (forward_getattr_eq _ _ _ _ Hl Hi),
    (reverse_getattr_eq _ _ _ _ Hl Hi).
  split; [done |]. split; [done |]. split; apply lookup_insert_eq.
Qed.

Lemma getattr_symlink_to_file_witness :
  let s := mk_state {[ "/r/f"%string := Regular meta0 (FILE_HEADER ++ hello);
                       "/r/l"%string := Symlink (set_size meta0 4) "/r/f" ]}
                    ∅ in
  exists df dr,
    GIFFS.getattr "/r/l" s = (Return df, s)
    /\ GIFFSReverse.getattr "/r/l" s = (Return dr, s)
    /\ df !! "st_size"%string = Some (st_size (set_size meta0 4) - L)
    /\ dr !! "st_size"%string = Some (st_size (set_size meta0 4) + L).
Proof.
  apply (getattr_symlink_to_file
           (mk_state {[ "/r/f"%string := Regular meta0 (FILE_HEADER ++ hello);
                        "/r/l"%string := Symlink (set_size meta0 4) "/r/f" ]}
                     ∅)
           "/r/l" "/r/f" (set_size meta0 4) meta0 (FILE_HEADER ++ hello));
    reflexivity.
Defined.

(** ** Failing calls and what a call leaves alone *)

Lemma state_eta (s : state) : mk_state (nodes s) (fds s) = s.
Proof. by destruct s. Qed.

(** X11: a forward truncate, whatever its arguments, leaves the table of
    open descriptors as it found it (the file object it opens is closed on
    every way out), and a truncate that raises leaves the whole store as it
    was. *)
Theorem truncate_closes (s : state) (path : string) (length : Z) :
  fds (snd (GIFFS.truncate path length s)) = fds s
  /\ forall e s', GIFFS.truncate path length s = (Raise e, s') -> s' = s.
Proof.
  unfold GIFFS.truncate, Os.open, resolve, bind, get, put, ret, raise.
  destruct (follow MAXSYMLINKS (nodes s) path) as [p | e0];
    [| split; [done | by intros e s' [= _ <-]]].
  destruct (nodes s !! p) as [[meta data | meta | meta target] |] eqn:Hn;
    try (split; [done | by intros e s' [= _ <-]]).
  unfold finally, Os.ftruncate, Os.close, bind, get, put, raise. simpl.
  rewrite !lookup_insert_eq.
  destruct (length + L <? 0); simpl; rewrite lookup_insert_eq;
    rewrite delete_insert_eq, delete_id by apply new_fd_free.
  - split; [done |]. intros e s' [= _ <-].
    rewrite insert_id by done. apply state_eta.
  - split; [done |]. intros e s' [=].
Qed.

(** X12: where a file cannot be created (the path resolves to a directory,
    or runs through too many links), forward [create] raises and leaves
    the store as it was. *)
Theorem create_refused (s : state) (path : string) (mode : Z) :
  creatable s path = false ->
  exists e, GIFFS.create path mode s = (Raise e, s)
            /\ (e = EISDIR \/ e = ELOOP).
Proof.
  unfold creatable, GIFFS.create, Os.open, resolve, bind, get, put, ret,
    raise.
  destruct (follow MAXSYMLINKS (nodes s) path) as [p | e0] eqn:Hf.
  - destruct (nodes s !! p) as [[meta data | meta | meta target] |];
      try done; intros _; eexists; (split; [done |]);
      first [by left | by right].
  - intros _. exists e0. split; [done |]. right.
    clear -Hf. revert path Hf. generalize MAXSYMLINKS.
    induction n as [| n IH]; intros path; simpl;
      destruct (nodes s !! path) as [[| | m t] |]; try done.
    + by intros [= <-].
    + apply IH.
Qed.

Lemma create_refused_witness :
  exists e,
    GIFFS.create "/r" 420 (mk_state {[ "/r"%string := Directory meta0 ]} ∅)
    = (Raise e, mk_state {[ "/r"%string := Directory meta0 ]} ∅)
    /\ (e = EISDIR \/ e = ELOOP).
Proof.
  apply (create_refused (mk_state {[ "/r"%string := Directory meta0 ]} ∅)
           "/r" 420).
  reflexivity.
Defined.

Lemma write_full s fd p pos meta old data :
  fds s !! fd = Some (p, pos) -> nodes s !! p = Some (Regular meta old) ->
  Os.write fd data s
  = (Return (Py.len data),
     mk_state (<[p := Regular meta (written old pos data)]> (nodes s))
              (<[fd := (p, (pos + length data)%nat)]> (fds s))).
Proof.
  intros Hfd Hn. unfold Os.write, bind, get, put, ret, raise.
  rewrite Hfd, Hn. destruct data as [| b data]; [| done].
  simpl. rewrite Nat.add_0_r, !insert_id by done. by rewrite state_eta.
Qed.

(** X13: a successful forward [create] returns a descriptor that was not
    open before, leaves every other descriptor and every other node as it
    was, and leaves the created file holding the signature alone, whatever
    it held before. *)
Theorem create_frame (s : state) (path : string) (mode : Z) :
  creatable s path = true ->
  exists fh s1 p,
    GIFFS.create path mode s = (Return fh, s1)
    /\ follow MAXSYMLINKS (nodes s) path = Return p
    /\ fds s !! fh = None
    /\ fds s1 !! fh = Some (p, length FILE_HEADER)
    /\ file_data s1 p = Some FILE_HEADER
    /\ (forall fd, fd <> fh -> fds s1 !! fd = fds s !! fd)
    /\ (forall p', p' <> p -> nodes s1 !! p' = nodes s !! p').
Proof.
  intros Hc. destruct (open_creat_ok s path mode Hc) as (p & meta & Hf & Ho).
  set (s0 := mk_state (<[p := Regular meta []]> (nodes s))
                      (<[new_fd s := (p, O)]> (fds s))) in Ho.
  pose proof (write_full s0 (new_fd s) p O meta [] FILE_HEADER
                (lookup_insert_eq _ _ _) (lookup_insert_eq _ _ _)) as Hw.
  eexists (new_fd s), _, p. split.
  - unfold GIFFS.create.
    rewrite (bind_return _ _ _ _ _ Ho), (bind_return _ _ _ _ _ Hw). done.
  - split; [done |]. split; [apply new_fd_free |]. simpl.
    split; [apply lookup_insert_eq |].
    split; [unfold file_data; simpl; by rewrite lookup_insert_eq |].
    split.
    + intros fd Hne. by rewrite !lookup_insert_ne.
    + intros p' Hne. by rewrite !lookup_insert_ne.
Qed.

Lemma create_frame_witness :
  exists fh s1 p,
    GIFFS.create "/r/f" 420 (one_file hello) = (Return fh, s1)
    /\ follow MAXSYMLINKS (nodes (one_file hello)) "/r/f" = Return p
    /\ fds (one_file hello) !! fh = None
    /\ fds s1 !! fh = Some (p, length FILE_HEADER)
    /\ file_data s1 p = Some FILE_HEADER
    /\ (forall fd, fd <> fh -> fds s1 !! fd = fds (one_file hello) !! fd)
    /\ (forall p', p' <> p -> nodes s1 !! p' = nodes (one_file hello) !! p').
Proof.
  apply (create_frame (one_file hello) "/r/f" 420). reflexivity.
Defined.

(** X14: [release] of an open handle closes it and changes no node;
    afterwards a forward read or write, a reverse read and a second
    [release] through that handle all raise [EBADF] and change nothing. *)
Theorem release_then_use (s : state) (fh : nat) (p : string) (q : nat)
    (path : string) (size offset : Z) (data : bytes) :
  fds s !! fh = Some (p, q) ->
  exists s1,
    release path fh s = (Return tt, s1)
    /\ nodes s1 = nodes s
    /\ fds s1 = delete fh (fds s)
    /\ GIFFS.read path size offset fh s1 = (Raise EBADF, s1)
    /\ GIFFS.write path data offset fh s1 = (Raise EBADF, s1)
    /\ GIFFSReverse.read path size offset fh s1 = (Raise EBADF, s1)
    /\ release path fh s1 = (Raise EBADF, s1).
Proof.
  intros Hfd. exists (mk_state (nodes s) (delete fh (fds s))).
  assert (Hseek : forall pos,
            Os.lseek fh pos (mk_state (nodes s) (delete fh (fds s)))
            = (@Raise Z EBADF, mk_state (nodes s) (delete fh (fds s)))).
  { intros pos. unfold Os.lseek, bind, get, raise. simpl.
    by rewrite lookup_delete_eq. }
  split; [unfold release, Os.close, bind, get, put; by rewrite Hfd |].
  split; [done |]. split; [done |].
  unfold GIFFS.read, GIFFS.write, GIFFSReverse.read, with_rwlock.
  rewrite !(bind_raise _ _ _ _ _ (Hseek _)).
  split; [done |]. split; [done |]. split.
  - destruct (offset <? L); by rewrite !(bind_raise _ _ _ _ _ (Hseek _)).
  - unfold release, Os.close, bind, get, raise. simpl.
    by rewrite lookup_delete_eq.
Qed.

Lemma release_then_use_witness :
  exists s1,
    release "/r/f" 3%nat (one_file hello) = (Return tt, s1)
    /\ nodes s1 = nodes (one_file hello)
    /\ fds s1 = delete 3%nat (fds (one_file hello))
    /\ GIFFS.read "/r/f" 5 0 3%nat s1 = (Raise EBADF, s1)
    /\ GIFFS.write "/r/f" hello 0 3%nat s1 = (Raise EBADF, s1)
    /\ GIFFSReverse.read "/r/f" 5 0 3%nat s1 = (Raise EBADF, s1)
    /\ release "/r/f" 3%nat s1 = (Raise EBADF, s1).
Proof.
  apply (release_then_use (one_file hello) 3%nat "/r/f" O "/r/f" 5 0 hello).
  reflexivity.
Defined.

(** ** Interleaved calls: exclusion, progress, serial order *)

Module SerialFacts.
Import Concurrent Serial.

Lemma forallb_lookup {A} (f : A -> bool) (l : list A) :
  forallb f l = true <-> forall i t, l !! i = Some t -> f t = true.
Proof.
  rewrite forallb_forall. split.
  - intros H i t Hi. apply H, list_elem_of_In, list_elem_of_lookup. eauto.
  - intros H t Ht. apply list_elem_of_In, list_elem_of_lookup in Ht.
    destruct Ht as [i Hi]. eauto.
Qed.

Lemma sequential_steps path c s :
  sequential path c s
  = match seek c s with
    | (Return _, s1) => transfer c s1
    | (Raise e, s1) => (Raise e, s1)
    end.
Proof.
  destruct c as [size offset fh | data offset fh];
    unfold sequential, GIFFS.read, GIFFS.write, with_rwlock, reply_with,
      seek, transfer, bind; simpl;
    by destruct (Os.lseek fh (offset + L) s) as [[r | e] s1].
Qed.

Lemma serial_snoc path cs order i c s :
  cs !! i = Some c ->
  serial path cs (order ++ [i]) s
  = ((sequential path c (serial path cs order s).1).2,
     (serial path cs order s).2
       ++ [(i, (sequential path c (serial path cs order s).1).1)]).
Proof.
  intros Hc. revert s. induction order as [| j order IH]; intros s; simpl.
  - rewrite Hc. by destruct (sequential path c s).
  - destruct (cs !! j) as [cj |]; [| apply IH].
    destruct (sequential path cj s) as [rj s1]. rewrite IH.
    by destruct (serial path cs order s1).
Qed.

Lemma quiet_progress path s w c ph :
  critical ph = false -> progress path s w (c, ph).
Proof. by destruct ph. Qed.

Lemma agrees_init path cs s0 : agrees path cs s0 (init cs s0) [].
Proof.
  unfold agrees, init. simpl.
  split; [constructor |].
  split; [rewrite <- list_fmap_compose; apply list_fmap_id |].
  split.
  - intros i. split; [by intros ?%elem_of_nil |].
    intros (c & r & H). rewrite list_lookup_fmap in H.
    by destruct (cs !! i).
  - split.
    + intros i c r H. rewrite list_lookup_fmap in H. by destruct (cs !! i).
    + split; [done |]. intros i t H. rewrite list_lookup_fmap in H.
      destruct (cs !! i); [| done]. injection H as <-. done.
Qed.

Section one_step.

Context (path : string) (cs : list call) (s0 : state).
Context (w : world) (order : list nat) (i : nat) (c : call) (ph : phase).
Hypothesis Hcons : consistent w.
Hypothesis Hag : agrees path cs s0 w order.
Hypothesis Hi : threads w !! i = Some (c, ph).

Lemma call_of_thread : cs !! i = Some c.
Proof.
  destruct Hag as (_ & <- & _). by rewrite list_lookup_fmap, Hi.
Qed.

Lemma calls_kept ph' : fst <$> <[i := (c, ph')]> (threads w) = cs.
Proof.
  rewrite list_fmap_insert. simpl.
  destruct Hag as (_ & Hcs & _). rewrite Hcs.
  apply list_insert_id, call_of_thread.
Qed.

(** A step that does not return keeps the calls that have returned. *)
Lemma done_kept ph' j :
  returned (c, ph) = false -> returned (c, ph') = false ->
  (exists cj r, <[i := (c, ph')]> (threads w) !! j = Some (cj, Done r))
  <-> (exists cj r, threads w !! j = Some (cj, Done r)).
Proof.
  intros Hph Hph'. destruct (decide (j = i)) as [-> | Hne].
  - rewrite list_lookup_insert_eq by (by eapply lookup_lt_Some).
    rewrite Hi. split; intros (cj & r & [= -> ->]); done.
  - by rewrite list_lookup_insert_ne.
Qed.

(** The other threads are outside the block when [i] is inside it or
    when the lock is free. *)
Lemma others_quiet j t :
  (critical ph = true \/ lock w = false) ->
  j <> i -> threads w !! j = Some t -> critical t.2 = false.
Proof.
  intros Hcase Hne Hj. destruct t as [cj phj]. simpl.
  destruct Hcase as [Hc | Hfree].
  - destruct (critical phj) eqn:E; [| done].
    destruct (ConcurrentFacts.critical_holds w i c ph Hcons Hi Hc)
      as (_ & c0 & ph0 & _ & _ & Hothers & _).
    by rewrite (Hothers j cj phj Hne Hj) in E.
  - unfold consistent in Hcons. rewrite Hfree in Hcons. by eapply Hcons.
Qed.

(** A step of [i] that stays short of returning: the same order serves. *)
Lemma agrees_inside lk s' ph' :
  (critical ph = true \/ lock w = false) ->
  returned (c, ph) = false -> critical ph' = true ->
  lk = true ->
  progress path (serial path cs order s0).1
           (mk_world lk s' (<[i := (c, ph')]> (threads w))) (c, ph') ->
  agrees path cs s0 (mk_world lk s' (<[i := (c, ph')]> (threads w))) order.
Proof.
  intros Hcase Hph Hph' -> Hprog.
  assert (Hret' : returned (c, ph') = false) by (by destruct ph').
  destruct Hag as (Hnd & Hcs & Hdone & Hres & Hfree & Hall).
  unfold agrees. simpl.
  split; [done |]. split; [apply calls_kept |]. split.
  - intros j. rewrite Hdone. symmetry. by apply done_kept.
  - split.
    + intros j cj r Hj. apply (Hres j cj r).
      destruct (decide (j = i)) as [-> | Hne].
      * rewrite list_lookup_insert_eq in Hj by (by eapply lookup_lt_Some).
        injection Hj as _ Heq. by rewrite Heq in Hph'.
      * by rewrite list_lookup_insert_ne in Hj.
    + split; [done |]. intros j t Hj.
      destruct (decide (j = i)) as [-> | Hne].
      * rewrite list_lookup_insert_eq in Hj by (by eapply lookup_lt_Some).
        by injection Hj as <-.
      * rewrite list_lookup_insert_ne in Hj by done.
        destruct t as [cj phj]. apply quiet_progress.
        apply (others_quiet j (cj, phj) Hcase Hne Hj).
Qed.

(** The release of [i]: its call joins the end of the order. *)
Lemma agrees_release r :
  ph = Leaving r ->
  agrees path cs s0
         (mk_world false (disk w) (<[i := (c, Done r)]> (threads w)))
         (order ++ [i]).
Proof.
  intros Heq.
  pose proof call_of_thread as Hc.
  pose proof Hag as (Hnd & Hcs & Hdone & Hres & Hfree & Hall).
  pose proof (Hall i _ Hi) as Hprog. unfold progress in Hprog.
  simpl in Hprog. rewrite Heq in Hprog.
  assert (Hcrit : critical ph = true) by (by rewrite Heq).
  assert (Hnew : i ∉ order).
  { rewrite Hdone, Hi, Heq. by intros (cj & r' & [=]). }
  unfold agrees. simpl. rewrite (serial_snoc path cs order i c s0 Hc).
  rewrite Hprog. simpl.
  split; [apply NoDup_app; split; [done |]; split;
          [intros x Hx ->%list_elem_of_singleton; done | apply NoDup_singleton]
         |].
  split; [apply calls_kept |]. split.
  - intros j. rewrite elem_of_app, list_elem_of_singleton, Hdone.
    destruct (decide (j = i)) as [-> | Hne].
    + rewrite list_lookup_insert_eq by (by eapply lookup_lt_Some).
      split; [by eauto | by right].
    + rewrite list_lookup_insert_ne by done. split; [| by left].
      by intros [H | H].
  - split.
    + intros j cj r' Hj. rewrite elem_of_app, list_elem_of_singleton.
      destruct (decide (j = i)) as [-> | Hne].
      * rewrite list_lookup_insert_eq in Hj by (by eapply lookup_lt_Some).
        injection Hj as <- <-. by right.
      * rewrite list_lookup_insert_ne in Hj by done. left. by eapply Hres.
    + split; [done |]. intros j t Hj.
      destruct (decide (j = i)) as [-> | Hne].
      * rewrite list_lookup_insert_eq in Hj by (by eapply lookup_lt_Some).
        by injection Hj as <-.
      * rewrite list_lookup_insert_ne in Hj by done.
        destruct t as [cj phj]. apply quiet_progress.
        apply (others_quiet j (cj, phj) (or_introl Hcrit) Hne Hj).
Qed.

End one_step.

Lemma agrees_step path cs s0 w order i w' :
  consistent w -> agrees path cs s0 w order -> step i w = Some w' ->
  exists order', agrees path cs s0 w' order'.
Proof.
  intros Hcons Hag. unfold step.
  destruct (threads w !! i) as [[c ph] |] eqn:Hi; [| done].
  pose proof Hag as (_ & _ & _ & _ & Hfree & Hall).
  pose proof (Hall i _ Hi) as Hprog. unfold progress in Hprog.
  simpl in Hprog.
  destruct ph as [| | | r | r]; simpl.
  - destruct (lock w) eqn:Hlk; [done |]. intros [= <-]. exists order.
    apply (agrees_inside path cs s0 w order i c Waiting); try done.
    + by right.
    + unfold progress. simpl. by apply Hfree.
  - destruct (seek c (disk w)) as [[r | e] s'] eqn:Hs; intros [= <-];
      exists order;
      destruct (ConcurrentFacts.critical_holds w i c Locked Hcons Hi eq_refl)
        as [Hlk _];
      apply (agrees_inside path cs s0 w order i c Locked); try done;
      try (by left); unfold progress; simpl; rewrite <- Hprog.
    + by exists r.
    + by rewrite sequential_steps, Hs.
  - destruct (transfer c (disk w)) as [r s'] eqn:Ht. intros [= <-].
    exists order.
    destruct (ConcurrentFacts.critical_holds w i c Seeked Hcons Hi eq_refl)
      as [Hlk _].
    apply (agrees_inside path cs s0 w order i c Seeked); try done;
      try (by left).
    unfold progress. simpl. destruct Hprog as [r0 Hs].
    by rewrite sequential_steps, Hs.
  - intros [= <-]. exists (order ++ [i]).
    by apply (agrees_release path cs s0 w order i c (Leaving r)).
  - done.
Qed.

Lemma agrees_run path cs s0 sched w order :
  consistent w -> agrees path cs s0 w order ->
  exists order', agrees path cs s0 (run sched w) order'.
Proof.
  revert w order. induction sched as [| i sched IH]; intros w order Hc Ha.
  - by exists order.
  - simpl. destruct (step i w) as [w' |] eqn:Hs; simpl.
    + destruct (agrees_step path cs s0 w order i w' Hc Ha Hs) as [o' Ha'].
      apply (IH w' o'); [| done].
      by apply (ConcurrentFacts.consistent_step w i w').
    + by apply (IH w order).
Qed.

End SerialFacts.

(** X15: in every world reached by interleaving calls of [read] and
    [write] under any schedule, at most one call is inside its
    [with self.rwlock] block. *)
Theorem mutual_exclusion (cs : list Concurrent.call) (s0 : state)
    (sched : list nat) (i j : nat) (ti tj : Concurrent.call * Concurrent.phase) :
  let w := Concurrent.run sched (Concurrent.init cs s0) in
  Concurrent.threads w !! i = Some ti ->
  Concurrent.threads w !! j = Some tj ->
  Concurrent.critical ti.2 = true ->
  Concurrent.critical tj.2 = true ->
  i = j.
Proof.
  intros w Hi Hj Hci Hcj. destruct ti as [ci phi], tj as [cj phj].
  assert (Hw : Concurrent.consistent w)
    by apply ConcurrentFacts.consistent_run, ConcurrentFacts.consistent_init.
  destruct (ConcurrentFacts.critical_holds w i ci phi Hw Hi Hci)
    as (_ & c0 & ph0 & _ & _ & Hothers & _).
  destruct (decide (j = i)) as [-> | Hne]; [done |].
  simpl in Hcj. by rewrite (Hothers j cj phj Hne Hj) in Hcj.
Qed.

Lemma mutual_exclusion_witness :
  let w := Concurrent.run [O; 1%nat; O]
             (Concurrent.init [Concurrent.CallRead 5 0 3%nat;
                               Concurrent.CallWrite hello 0 3%nat]
                              (one_file (FILE_HEADER ++ hello))) in
  Concurrent.threads w !! O = Some (Concurrent.CallRead 5 0 3%nat,
                                    Concurrent.Seeked)
  /\ O = O.
Proof.
  split; [reflexivity |].
  apply (mutual_exclusion
           [Concurrent.CallRead 5 0 3%nat; Concurrent.CallWrite hello 0 3%nat]
           (one_file (FILE_HEADER ++ hello)) [O; 1%nat; O] O O
           (Concurrent.CallRead 5 0 3%nat, Concurrent.Seeked)
           (Concurrent.CallRead 5 0 3%nat, Concurrent.Seeked));
    reflexivity.
Defined.

(** X16: no reachable world is stuck: as long as some call has not
    returned, some thread can take a step, also after [os.lseek],
    [os.read] or [os.write] has raised inside the block. *)
Theorem no_deadlock (cs : list Concurrent.call) (s0 : state)
    (sched : list nat) :
  let w := Concurrent.run sched (Concurrent.init cs s0) in
  forallb Serial.returned (Concurrent.threads w) = false ->
  exists j w', Concurrent.step j w = Some w'.
Proof.
  intros w Hleft.
  assert (Hw : Concurrent.consistent w)
    by apply ConcurrentFacts.consistent_run, ConcurrentFacts.consistent_init.
  assert (Hex : exists i c ph,
            Concurrent.threads w !! i = Some (c, ph)
            /\ Serial.returned (c, ph) = false).
  { destruct (forallb Serial.returned (Concurrent.threads w)) eqn:E;
      [done |].
    clear Hleft. revert E. generalize (Concurrent.threads w).
    induction l as [| [c ph] l IH]; [done |]. simpl.
    destruct (Serial.returned (c, ph)) eqn:Hr; simpl.
    - intros (i & c' & ph' & Hl & Hn)%IH. by exists (S i), c', ph'.
    - intros _. by exists O, c, ph. }
  destruct Hex as (i & c & ph & Hi & Hret).
  unfold Concurrent.consistent in Hw.
  destruct (Concurrent.lock w) eqn:Hlk.
  - destruct Hw as (h & ch & phh & Hh & Hcrit & _).
    exists h. unfold Concurrent.step. rewrite Hh.
    destruct phh as [| | | r | r]; try done; simpl.
    + destruct (Concurrent.seek ch (Concurrent.disk w)) as [[r | e] s'];
        by eexists.
    + destruct (Concurrent.transfer ch (Concurrent.disk w)) as [r s'].
      by eexists.
    + by eexists.
  - exists i. unfold Concurrent.step. rewrite Hi.
    pose proof (Hw i c ph Hi) as Hq.
    destruct ph as [| | | r | r]; try done. simpl. rewrite Hlk. by eexists.
Qed.

Lemma no_deadlock_witness :
  exists j w',
    Concurrent.step j
      (Concurrent.run [O; 1%nat; O]
         (Concurrent.init [Concurrent.CallRead (-1) 0 3%nat;
                           Concurrent.CallWrite hello 0 3%nat]
                          (one_file (FILE_HEADER ++ hello))))
    = Some w'.
Proof.
  apply (no_deadlock
           [Concurrent.CallRead (-1) 0 3%nat;
            Concurrent.CallWrite hello 0 3%nat]
           (one_file (FILE_HEADER ++ hello)) [O; 1%nat; O]).
  reflexivity.
Defined.

(** X17: when every call of an interleaved run has returned, the lock is
    free and the run is equivalent to a serial one: there is an order of
    all the calls such that running them one after the other in that
    order, each as the method of [GIFFS], ends in the same store and gives
    every call the same result. *)
Theorem interleaving_is_serial (path : string) (cs : list Concurrent.call)
    (s0 : state) (sched : list nat) :
  let w := Concurrent.run sched (Concurrent.init cs s0) in
  forallb Serial.returned (Concurrent.threads w) = true ->
  Concurrent.lock w = false
  /\ exists order,
       order ≡ₚ seq 0 (length cs)
       /\ Concurrent.disk w = (Serial.serial path cs order s0).1
       /\ forall i c r,
            Concurrent.threads w !! i = Some (c, Concurrent.Done r) ->
            cs !! i = Some c
            /\ (i, r) ∈ (Serial.serial path cs order s0).2.
Proof.
  intros w Hall.
  assert (Hw : Concurrent.consistent w)
    by apply ConcurrentFacts.consistent_run, ConcurrentFacts.consistent_init.
  destruct (SerialFacts.agrees_run path cs s0 sched _ []
              (ConcurrentFacts.consistent_init cs s0)
              (SerialFacts.agrees_init path cs s0)) as [order Hag].
  fold w in Hag.
  pose proof (proj1 (SerialFacts.forallb_lookup _ _) Hall) as Hret.
  assert (Hlk : Concurrent.lock w = false).
  { unfold Concurrent.consistent in Hw.
    destruct (Concurrent.lock w); [| done].
    destruct Hw as (h & ch & phh & Hh & Hcrit & _).
    specialize (Hret h _ Hh). by destruct phh. }
  split; [done |].
  destruct Hag as (Hnd & Hcs & Hdone & Hres & Hfree & _).
  exists order. split; [| split; [by apply Hfree |]].
  - apply NoDup_Permutation; [done | apply NoDup_seq |].
    intros i. rewrite Hdone, elem_of_seq. rewrite <- Hcs, length_fmap.
    split.
    + intros (c & r & Hi). apply lookup_lt_Some in Hi. lia.
    + intros [_ Hlt]. simpl in Hlt.
      destruct (lookup_lt_is_Some_2 _ _ Hlt) as [[c ph] Hi].
      specialize (Hret i _ Hi). destruct ph; try done. by eauto.
  - intros i c r Hi. split; [| by eapply Hres].
    rewrite <- Hcs. by rewrite list_lookup_fmap, Hi.
Qed.

Lemma interleaving_is_serial_witness :
  let cs := [Concurrent.CallRead 5 0 3%nat;
             Concurrent.CallWrite hello 2 3%nat] in
  let s0 := one_file (FILE_HEADER ++ hello) in
  let w := Concurrent.run
             [1%nat; O; 1%nat; O; 1%nat; 1%nat; O; O; O; O] 
             (Concurrent.init cs s0) in
  Concurrent.lock w = false
  /\ exists order,
       order ≡ₚ seq 0 (length cs)
       /\ Concurrent.disk w = (Serial.serial "/r/f" cs order s0).1
       /\ forall i c r,
            Concurrent.threads w !! i = Some (c, Concurrent.Done r) ->
            cs !! i = Some c
            /\ (i, r) ∈ (Serial.serial "/r/f" cs order s0).2.
Proof.
  apply (interleaving_is_serial "/r/f"
           [Concurrent.CallRead 5 0 3%nat; Concurrent.CallWrite hello 2 3%nat]
           (one_file (FILE_HEADER ++ hello))
           [1%nat; O; 1%nat; O; 1%nat; 1%nat; O; O; O; O]).
  reflexivity.
Defined.

(** ** Start-up options *)

Module MainFacts.
Import Main.

Lemma split_plain sep field :
  occurs sep field = false -> split sep field = [field].
Proof.
  induction field as [| c field IH]; [done |]. simpl.
  destruct (Ascii.eqb c sep); [done |]. simpl.
  intros H. by rewrite (IH H).
Qed.

Lemma split_cons sep field rest :
  occurs sep field = false ->
  split sep (field +:+ String sep rest) = field :: split sep rest.
Proof.
  induction field as [| c field IH]; simpl.
  - by rewrite Ascii.eqb_refl.
  - destruct (Ascii.eqb c sep); [done |]. simpl.
    intros H. by rewrite (IH H).
Qed.

Lemma split_join sep field fields :
  forallb (fun f => negb (occurs sep f)) (field :: fields) = true ->
  split sep (join sep (field :: fields)) = field :: fields.
Proof.
  revert field. induction fields as [| g fields IH]; intros field.
  - simpl. rewrite andb_true_r. intros H%negb_true_iff.
    by apply split_plain.
  - intros H. change (forallb _ (field :: g :: fields))
      with (negb (occurs sep field)
            && forallb (fun f => negb (occurs sep f)) (g :: fields)) in H.
    apply andb_true_iff in H as [Hf%negb_true_iff Hrest].
    change (join sep (field :: g :: fields))
      with (field +:+ String sep (join sep (g :: fields))).
    by rewrite split_cons, IH.
Qed.

Lemma member_elem_of x (l : list string) : member x l = true <-> x ∈ l.
Proof.
  unfold member. rewrite existsb_exists. split.
  - intros (y & Hy & ->%String.eqb_eq). by apply list_elem_of_In.
  - intros H. exists x. split; [by apply list_elem_of_In |].
    apply String.eqb_refl.
Qed.

End MainFacts.

(** X18: for an option string made of comma-free fields joined by commas,
    start-up mounts the reverse personality exactly when one field is
    ["reverse"] and otherwise the forward one, passes [allow_other] exactly
    when one field is ["allow_other"], whatever the order and the other
    fields, and always asks for single-threaded dispatch in the
    background. *)
Theorem main_options (root mountpoint : string) (field : string)
    (fields : list string) :
  forallb (fun f => negb (Main.occurs "," f)) (field :: fields) = true ->
  exists m,
    Main.main root mountpoint (Some (Main.join "," (field :: fields)))
    = Main.Mounted m
    /\ (Main.operations m = Main.Reverse
        <-> "reverse"%string ∈ field :: fields)
    /\ (Main.operations m = Main.Forward
        <-> "reverse"%string ∉ field :: fields)
    /\ (Main.allow_other m = true
        <-> "allow_other"%string ∈ field :: fields)
    /\ Main.source m = root
    /\ Main.mountpoint m = mountpoint
    /\ Main.nothreads m = true
    /\ Main.foreground m = false.
Proof.
  intros Hplain. unfold Main.main.
  rewrite (MainFacts.split_join _ _ _ Hplain).
  destruct (Main.member "reverse" (field :: fields)) eqn:Hrev;
    eexists; (split; [reflexivity |]); simpl;
    rewrite <- !MainFacts.member_elem_of, Hrev;
    repeat split; try done.
  all: try (intros H; by apply H).
  all: by intros H.
Qed.

Lemma main_options_witness :
  exists m,
    Main.main "/srv/plain" "/mnt/gif"
      (Some (Main.join "," ["allow_other"; "reverse"; "ro"]%string))
    = Main.Mounted m
    /\ (Main.operations m = Main.Reverse
        <-> "reverse"%string ∈ ["allow_other"; "reverse"; "ro"]%string)
    /\ (Main.operations m = Main.Forward
        <-> "reverse"%string ∉ ["allow_other"; "reverse"; "ro"]%string)
    /\ (Main.allow_other m = true
        <-> "allow_other"%string ∈ ["allow_other"; "reverse"; "ro"]%string)
    /\ Main.source m = "/srv/plain"%string
    /\ Main.mountpoint m = "/mnt/gif"%string
    /\ Main.nothreads m = true
    /\ Main.foreground m = false.
Proof.
  apply (main_options "/srv/plain" "/mnt/gif" "allow_other"
           ["reverse"; "ro"]%string).
  reflexivity.
Defined.
